(** * PoPPy: point-process association analysis (spacepy/poppy.py)

    A shallow embedding of [PPro] (the session object with its methods
    [swap] and [assoc]) and of the module-level function [boots_ci].

    Conventions of the embedding.
    - Time stamps, lags and the window half-width are integers ([Z]).
    - numpy arrays holding counts are lists of [Z]; a two-dimensional
      array carries its shape, as [np.zeros((0, k))] still has [k] columns.
    - Real-valued results (means, percentiles) are exact rationals ([Q]);
      [NaN] is kept as a separate value because [np.mean] of an empty
      selection yields it.
    - Python exceptions are values of [exn]; code that may raise lives in
      the error monad [res].
    - The pseudo-random index table drawn by [numpy.random.randint] is an
      explicit argument of [boots_ci]. *)

From Stdlib Require Import ZArith QArith Qround Ascii String Lqa.
From stdpp Require Import base option list gmap strings pretty.

Local Open Scope Z_scope.

(** ** Exceptions and the error monad *)

Inductive exn : Type :=
| AssertionError
| IndexError
| KeyError
| TypeError.

Definition res (A : Type) : Type := exn + A.

Definition raise {A : Type} (e : exn) : res A := inl e.
Definition ok {A : Type} (a : A) : res A := inr a.

Definition rbind {A B : Type} (m : res A) (k : A → res B) : res B :=
  match m with
  | inl e => inl e
  | inr a => k a
  end.

Notation "'let!' x ':=' m 'in' k" := (rbind m (fun x => k))
  (at level 10, x name, m at level 100, k at level 200).

(** [for idx, x in enumerate(l): body], the counter starting at [k], run
    on a mutable object of type [St]: the loop stops at the first
    exception and leaves the object as it was at that point. *)
Fixpoint for_enum {A St : Type} (k : nat) (l : list A)
    (body : nat → A → St → St * res unit) (s : St) : St * res unit :=
  match l with
  | [] => (s, ok tt)
  | x :: l' =>
      match body k x s with
      | (s', inr _) => for_enum (S k) l' body s'
      | (s', inl e) => (s', inl e)
      end
  end.

(** ** Two-dimensional count arrays *)

Record ndarray2 : Type := mk_ndarray2 {
  shape : nat * nat;
  rows : list (list Z)
}.

(** [np.zeros((r, c))] *)
Definition np_zeros2 (r c : nat) : ndarray2 :=
  {| shape := (r, c); rows := replicate r (replicate c 0) |}.

(** [m[i, j] = v] on the array object [m]; numpy raises [IndexError]
    outside the shape and leaves the array alone. *)
Definition setitem2 (i j : nat) (v : Z) (m : ndarray2)
    : ndarray2 * res unit :=
  match rows m !! i with
  | Some row =>
      if decide (j < length row)%nat
      then ({| shape := shape m; rows := <[i := <[j := v]> row]> (rows m) |},
            ok tt)
      else (m, raise IndexError)
  | None => (m, raise IndexError)
  end.

(** [m[i, j]] *)
Definition getitem2 (m : ndarray2) (i j : nat) : option Z :=
  match rows m !! i with
  | Some row => row !! j
  | None => None
  end.

(** Element-wise sum of two rows of equal length. *)
Definition add_rows (acc row : list Z) : list Z :=
  zip_with Z.add acc row.

(** [np.sum(m, axis=0)]: the rows are added, one after the other, onto a
    zero vector with one entry per column. *)
Definition np_sum_axis0 (m : ndarray2) : list Z :=
  foldl add_rows (replicate (snd (shape m)) 0) (rows m).

(** ** Floating-point results: a rational or NaN *)

Inductive fval : Type :=
| NaN
| Fin (q : Q).

(** Sum of a list of integers. *)
Definition zsum (l : list Z) : Z := foldr Z.add 0 l.

(** [np.mean] of a one-dimensional array of counts; the mean of an empty
    array is NaN (numpy warns, it does not raise). *)
Definition np_mean (l : list Z) : fval :=
  match l with
  | [] => NaN
  | _ :: _ => Fin (inject_Z (zsum l) / inject_Z (Z.of_nat (length l)))
  end.

(** [np.mean([a, b])] of two floating-point values: NaN is contagious. *)
Definition np_mean2 (a b : fval) : fval :=
  match a, b with
  | Fin x, Fin y => Fin ((x + y) / 2)
  | _, _ => NaN
  end.

(** ** The session object *)

(** Attributes that [__init__] does not create ([n_assoc], [assoc_total],
    [asympt_assoc], [ci]) are optional: [None] stands for "attribute not
    present".  For [lags] and [winhalf], [None] is Python's [None]. *)
Record PPro : Type := mk_PPro {
  process1 : list Z;
  process2 : list Z;
  lags : option (list Z);
  winhalf : option Z;
  n_assoc : option ndarray2;
  assoc_total : option (list Z);
  asympt_assoc : option fval;
  ci : option (list fval * list fval)
}.

(** [PPro.__init__] *)
Definition init (p1 p2 : list Z) (lags0 : option (list Z))
    (winhalf0 : option Z) : PPro :=
  {| process1 := p1; process2 := p2; lags := lags0; winhalf := winhalf0;
     n_assoc := None; assoc_total := None; asympt_assoc := None;
     ci := None |}.

(** [PPro.__len__] *)
Definition len (self : PPro) : nat := length (process1 self).

(** [PPro.swap] *)
Definition swap (self : PPro) : PPro :=
  let temp2 := process1 self in
  let temp1 := process2 self in
  {| process1 := temp1; process2 := temp2;
     lags := lags self; winhalf := winhalf self;
     n_assoc := n_assoc self; assoc_total := assoc_total self;
     asympt_assoc := asympt_assoc self; ci := ci self |}.

(** Attribute assignments used by [assoc]. *)
Definition set_lags (self : PPro) (v : option (list Z)) : PPro :=
  {| process1 := process1 self; process2 := process2 self;
     lags := v; winhalf := winhalf self;
     n_assoc := n_assoc self; assoc_total := assoc_total self;
     asympt_assoc := asympt_assoc self; ci := ci self |}.

Definition set_winhalf (self : PPro) (v : option Z) : PPro :=
  {| process1 := process1 self; process2 := process2 self;
     lags := lags self; winhalf := v;
     n_assoc := n_assoc self; assoc_total := assoc_total self;
     asympt_assoc := asympt_assoc self; ci := ci self |}.

Definition set_n_assoc (self : PPro) (m : ndarray2) : PPro :=
  {| process1 := process1 self; process2 := process2 self;
     lags := lags self; winhalf := winhalf self;
     n_assoc := Some m; assoc_total := assoc_total self;
     asympt_assoc := asympt_assoc self; ci := ci self |}.

Definition set_assoc_total (self : PPro) (tot : list Z) : PPro :=
  {| process1 := process1 self; process2 := process2 self;
     lags := lags self; winhalf := winhalf self;
     n_assoc := n_assoc self; assoc_total := Some tot;
     asympt_assoc := asympt_assoc self; ci := ci self |}.

Definition set_asympt_assoc (self : PPro) (asy : fval) : PPro :=
  {| process1 := process1 self; process2 := process2 self;
     lags := lags self; winhalf := winhalf self;
     n_assoc := n_assoc self; assoc_total := assoc_total self;
     asympt_assoc := Some asy; ci := ci self |}.

(** Python truth value of a lag list ([None] and [[]] are false) and of a
    half-width ([None] and [0] are false). *)
Definition truthy_lags (u : option (list Z)) : bool :=
  match u with
  | Some (_ :: _) => true
  | _ => false
  end.

Definition truthy_num (h : option Z) : bool :=
  match h with
  | Some w => negb (w =? 0)
  | None => false
  end.

(** The [try] block at the head of [assoc]: assignments made before a
    failing [assert] stay on the object. *)
Definition check_attrs (self : PPro) (u : option (list Z)) (h : option Z)
    : PPro * res unit :=
  let self1 := if truthy_lags u then set_lags self u else self in
  if negb (truthy_lags (lags self1)) then (self1, raise AssertionError)
  else
    let self2 := if truthy_num h then set_winhalf self1 h else self1 in
    if negb (truthy_num (winhalf self2)) then (self2, raise AssertionError)
    else (self2, ok tt).

(** ** Collaborators of [assoc] *)

(** Indices, counted from [k], of the entries of [l] that satisfy [P]. *)
Fixpoint find_indices (P : Z → bool) (k : nat) (l : list Z) : list nat :=
  match l with
  | [] => []
  | t :: l' =>
      if P t then k :: find_indices P (S k) l' else find_indices P (S k) l'
  end.

Definition in_window (lo hi t : Z) : bool := (lo <=? t) && (t <=? hi).

(** Modelled from the spec: [spacepy.toolbox.tOverlap] is not part of
    the source at hand.  Given the interval [[lo, hi]], closed on both
    ends, and a series of time stamps, it yields the indices of the time
    stamps inside the interval, or the "no match" indicator [None] when
    there is none.  Only the second component of the pair the function
    returns (the indices into the series) is read by [assoc]; it is the
    one modelled. *)
Definition tOverlap (interval : Z * Z) (series : list Z)
    : option (list nat) :=
  match find_indices (in_window (fst interval) (snd interval)) 0 series with
  | [] => None
  | i :: inds => Some (i :: inds)
  end.

(** Ascending insertion sort on rationals. *)
Fixpoint insert_sorted (x : Q) (l : list Q) : list Q :=
  match l with
  | [] => [x]
  | y :: l' => if Qle_bool x y then x :: y :: l' else y :: insert_sorted x l'
  end.

Definition sort_values (l : list Q) : list Q := foldr insert_sorted [] l.

(** Reading a sorted sample at an integer rank; outside the sample it is
    an [IndexError]. *)
Definition value_at (values : list Q) (r : Z) : res Q :=
  if r <? 0 then raise IndexError
  else match values !! Z.to_nat r with
       | Some v => ok v
       | None => raise IndexError
       end.

(** Modelled from the spec: [matplotlib.mlab.prctile] is not part of the
    source at hand.  The [p]-th percentile of the sample [x] by linear
    interpolation: the rank is [p/100 * (n - 1)] for a sample of size
    [n], and the result interpolates between the sorted values at the
    floor and at the ceiling of the rank. *)
Definition prctile (x : list Q) (p : Q) : res Q :=
  let values := sort_values x in
  let rank := (p / 100 * (inject_Z (Z.of_nat (length values)) - 1))%Q in
  let lo := Qfloor rank in
  let hi := Qceiling rank in
  let! a := value_at values lo in
  let! b := value_at values hi in
  ok (a + (b - a) * (rank - inject_Z lo))%Q.

(** Number of cut points strictly below [v]: the leftmost insertion index
    of [v] into the ascending cut points. *)
Fixpoint searchsorted (cuts : list Q) (v : Q) : nat :=
  match cuts with
  | [] => 0
  | c :: cuts' =>
      if Qle_bool v c then searchsorted cuts' v
      else S (searchsorted cuts' v)
  end.

(** Modelled from the spec: [matplotlib.mlab.prctile_rank] is not part of
    the source at hand.  Each value of [x] is ranked against the two
    percentiles [p] of [x] itself: rank 0 up to the lower percentile, rank
    2 above the upper one, rank 1 in between. *)
Definition prctile_rank (x : list Z) (p : Q * Q) : res (list nat) :=
  let xq := inject_Z <$> x in
  let! c1 := prctile xq (fst p) in
  let! c2 := prctile xq (snd p) in
  ok (searchsorted [c1; c2] <$> xq).

(** [a[mask]] for a boolean mask: numpy raises [IndexError] when the mask
    and the array differ in length. *)
Fixpoint select (mask : list bool) (a : list Z) : list Z :=
  match mask, a with
  | b :: mask', v :: a' => if b then v :: select mask' a' else select mask' a'
  | _, _ => []
  end.

Definition mask_select (a : list Z) (mask : list bool) : res (list Z) :=
  if decide (length mask = length a) then ok (select mask a)
  else raise IndexError.

(** ** [PPro.assoc] *)

Inductive outcome : Type :=
| ReturnNone
| ReturnStr (msg : string)
| Raised (e : exn).

Definition assoc_error_msg : string :=
  "assoc error: attributes lags and winhalf must be populated".

(** Body of the inner loop: one cell of [n_assoc]. *)
Definition assoc_cell (p2 : list Z) (w : Z) (ilag : nat) (lag : Z)
    (nss : nat) (tp1 : Z) : ndarray2 → ndarray2 * res unit :=
  let t_lower := tp1 + lag - w in
  let t_upper := tp1 + lag + w in
  let inds2 := tOverlap (t_lower, t_upper) p2 in
  let numby :=
    match inds2 with
    | None => 0
    | Some inds => Z.of_nat (length inds)
    end in
  setitem2 nss ilag numby.

(** The two nested loops (lines 147-157). *)
Definition assoc_loops (p1 p2 : list Z) (lg : list Z) (w : Z)
    : ndarray2 → ndarray2 * res unit :=
  for_enum 0 lg (λ ilag lag, for_enum 0 p1 (assoc_cell p2 w ilag lag)).

(** Lines 160-163: the asymptotic association number. *)
Definition asymptote (lg : list Z) (tot : list Z) : res fval :=
  let! pul := prctile_rank lg (20, 80)%Q in
  let! valsL := mask_select tot ((λ r, Nat.eqb r 0) <$> pul) in
  let! valsR := mask_select tot ((λ r, Nat.eqb r 2) <$> pul) in
  ok (np_mean2 (np_mean valsL) (np_mean valsR)).

Definition assoc (self : PPro) (u : option (list Z)) (h : option Z)
    : PPro * outcome :=
  match check_attrs self u h with
  | (self', inl _) => (self', ReturnStr assoc_error_msg)
  | (self', inr _) =>
      match lags self', winhalf self' with
      | Some lg, Some w =>
          let m0 := np_zeros2 (length (process1 self')) (length lg) in
          match assoc_loops (process1 self') (process2 self') lg w m0 with
          | (m, inl e) => (set_n_assoc self' m, Raised e)
          | (m, inr _) =>
              let tot := np_sum_axis0 m in
              let self2 := set_assoc_total (set_n_assoc self' m) tot in
              match asymptote lg tot with
              | inl e => (self2, Raised e)
              | inr asy => (set_asympt_assoc self2 asy, ReturnNone)
              end
          end
      | _, _ => (self', Raised TypeError)
      end
  end.

(** ** [boots_ci] *)

(** [a[i] = v] on a one-dimensional array. *)
Definition setitem1 (i : nat) (v : Q) (a : list Q) : list Q * res unit :=
  if decide (i < length a)%nat then (<[i := v]> a, ok tt)
  else (a, raise IndexError).

(** [np.empty([k])]: the contents are unspecified; every cell is written
    before it is read. *)
Definition np_empty (k : nat) : list Q := replicate k 0%Q.

(** The "dict_loop": [data_copy[el] = rec] for every record. *)
Definition build_data_copy (data : list Q) : gmap nat Q :=
  fst (for_enum 0 data (λ el rec d, (<[el := rec]> d, ok tt)) ∅).

(** [ran_el[:, i]]: column [i] of the index table. *)
Definition column_of (ran_el : list (list nat)) (i : nat) : res (list nat) :=
  match mapM (λ row : list nat, row !! i) ran_el with
  | Some col => ok col
  | None => raise IndexError
  end.

(** Body of the "dict_resample" loop. *)
Definition resample_step (data_copy : gmap nat Q) (el rec : nat)
    (surr_ser : list Q) : list Q * res unit :=
  match data_copy !! rec with
  | Some v => setitem1 el v surr_ser
  | None => (surr_ser, raise KeyError)
  end.

(** Body of the loop over the [n] bootstrapped series; the loop state is
    the pair of arrays [(surr_ser, surr_quan)]. *)
Definition surrogate_step (func : list Q → Q) (data_copy : gmap nat Q)
    (ran_el : list (list nat)) (i : nat) (st : list Q * list Q)
    : (list Q * list Q) * res unit :=
  match column_of ran_el i with
  | inl e => (st, inl e)
  | inr col =>
      match for_enum 0 col (resample_step data_copy) (fst st) with
      | (surr_ser, inl e) => ((surr_ser, snd st), inl e)
      | (surr_ser, inr _) =>
          match setitem1 i (func surr_ser) (snd st) with
          | (surr_quan, r) => ((surr_ser, surr_quan), r)
          end
      end
  end.

(** [boots_ci(data, n, inter, func)].  [ran_el] is the table that
    [randint(0, n_els, size=[n_els, n])] returns in this call. *)
Definition boots_ci (data : list Q) (n : nat) (inter : Q)
    (func : list Q → Q) (ran_el : list (list nat)) : res (Q * Q) :=
  let perc_low := ((100 - inter) / 2)%Q in
  let perc_high := (inter + perc_low)%Q in
  let n_els := length data in
  if decide (2 < n_els)%nat then
    let surr_ser := np_empty n_els in
    let data_copy := build_data_copy data in
    let surr_quan := np_empty n in
    match for_enum 0 (seq 0 n)
            (λ _ i, surrogate_step func data_copy ran_el i)
            (surr_ser, surr_quan) with
    | (_, inl e) => raise e
    | ((_, surr_quan'), inr _) =>
        let! ci_low := prctile surr_quan' perc_low in
        let! ci_high := prctile surr_quan' perc_high in
        ok (ci_low, ci_high)
    end
  else raise TypeError.

(** [randint(0, n_els, size=[n_els, n])] yields [n_els] rows of [n]
    indices, each below [n_els]. *)
Definition randint_table (n_els n : nat) (ran_el : list (list nat)) : Prop :=
  length ran_el = n_els ∧
  Forall (λ row, length row = n ∧ Forall (λ k, k < n_els)%nat row) ran_el.

(** ** Specification-side definitions *)

(** Number of points of [series] inside the closed interval [[lo, hi]]. *)
Definition count_in (series : list Z) (lo hi : Z) : nat :=
  length (filter (λ t, lo ≤ t ≤ hi) series).

(** Column [j] of a count array, top to bottom. *)
Definition column (m : ndarray2) (j : nat) : list Z :=
  (λ row : list Z, default 0 (row !! j)) <$> rows m.

(** Call-time arguments merged over the stored attributes. *)
Definition merge_lags (self : PPro) (u : option (list Z))
    : option (list Z) :=
  if truthy_lags u then u else lags self.

Definition merge_winhalf (self : PPro) (h : option Z) : option Z :=
  if truthy_num h then h else winhalf self.

(** The [p]-th percentile of the lag values. *)
Definition lag_percentile (lg : list Z) (p : Q) : Q :=
  match prctile (inject_Z <$> lg) p with
  | inr v => v
  | inl _ => 0%Q
  end.

(** Lag indices whose lag value is at most the 20th percentile of the lag
    values, and those whose lag value exceeds the 80th. *)
Definition low_bucket (lg : list Z) : list nat :=
  find_indices (λ v, Qle_bool (inject_Z v) (lag_percentile lg 20)) 0 lg.

Definition high_bucket (lg : list Z) : list nat :=
  find_indices (λ v, negb (Qle_bool (inject_Z v) (lag_percentile lg 80))) 0 lg.

(** The values of the association curve at the given lag indices. *)
Definition curve_at (tot : list Z) (idxs : list nat) : list Z :=
  (λ j, default 0 (tot !! j)) <$> idxs.

(** Tail percentiles of a confidence level. *)
Definition lowPercentile (confidenceLevel : Q) : Q :=
  ((100 - confidenceLevel) / 2)%Q.

Definition highPercentile (confidenceLevel : Q) : Q :=
  (confidenceLevel + lowPercentile confidenceLevel)%Q.

(** The resampled vector for a list of drawn indices. *)
Definition resample (data : list Q) (idxs : list nat) : list Q :=
  (λ k, default 0%Q (data !! k)) <$> idxs.

(** The indices drawn for resample number [i]. *)
Definition draws (ran_el : list (list nat)) (i : nat) : list nat :=
  (λ row : list nat, default 0%nat (row !! i)) <$> ran_el.

(** The surrogate distribution: one value of the statistic per resample. *)
Definition surrogates (data : list Q) (n : nat) (func : list Q → Q)
    (ran_el : list (list nat)) : list Q :=
  (λ i, func (resample data (draws ran_el i))) <$> seq 0 n.

(** Linear interpolation between the sorted sample values at the floor and
    at the ceiling of the rank [p/100 * (size - 1)]. *)
Definition interpolated_percentile (sample : list Q) (p v : Q) : Prop :=
  let sorted := sort_values sample in
  let rank := (p / 100 * (inject_Z (Z.of_nat (length sample)) - 1))%Q in
  ∃ a b, sorted !! Z.to_nat (Qfloor rank) = Some a ∧
         sorted !! Z.to_nat (Qceiling rank) = Some b ∧
         v = (a + (b - a) * (rank - inject_Z (Qfloor rank)))%Q.

(** [m] has shape [(R, C)] and holds [f i j] in cell [(i, j)]. *)
Definition cells (m : ndarray2) (R C : nat) (f : nat → nat → Z) : Prop :=
  shape m = (R, C) ∧ length (rows m) = R ∧
  ∀ i row, rows m !! i = Some row →
    length row = C ∧ ∀ j, (j < C)%nat → row !! j = Some (f i j).

(** The count that [assoc] is to store in cell [(i, j)]. *)
Definition window_count (p1 p2 lg : list Z) (w : Z) (i j : nat) : Z :=
  let c := default 0 (p1 !! i) + default 0 (lg !! j) in
  Z.of_nat (count_in p2 (c - w) (c + w)).

(** Ascending order, stated on positions. *)
Definition ascending (l : list Q) : Prop :=
  ∀ i j a b, (i ≤ j)%nat → l !! i = Some a → l !! j = Some b → (a <= b)%Q.

(** The fractional rank of the [p]-th percentile in a sample of size [n]. *)
Definition pct_rank (n : nat) (p : Q) : Q :=
  (p / 100 * (inject_Z (Z.of_nat n) - 1))%Q.

(** Everything on the object except the stored lags is the same. *)
Definition same_but_lags (self self' : PPro) : Prop :=
  process1 self' = process1 self ∧ process2 self' = process2 self ∧
  winhalf self' = winhalf self ∧ n_assoc self' = n_assoc self ∧
  assoc_total self' = assoc_total self ∧
  asympt_assoc self' = asympt_assoc self ∧ ci self' = ci self.

(** The value [assoc] stores as asymptotic association number, in terms of
    the two buckets of lag indices. *)
Definition bucket_average (lg tot : list Z) : fval :=
  np_mean2 (np_mean (curve_at tot (low_bucket lg)))
           (np_mean (curve_at tot (high_bucket lg))).

(** A lag list, or a half-width, that does not count as populated: Python
    treats [None], the empty list and zero as false. *)
Definition unusable_lags (l : option (list Z)) : Prop :=
  l = None ∨ l = Some [].

Definition unusable_winhalf (h : option Z) : Prop :=
  h = None ∨ h = Some 0.

(** ** Sample inputs *)

Definition demo : PPro :=
  init [0; 10; 20] [1; 11; 22] (Some [-2; 0; 2]) (Some 2).

Definition demo_done : PPro := fst (assoc demo None None).

Definition bare : PPro := init [0] [0] None None.

Definition no_series1 : PPro := init [] [5] None (Some 3).

Definition qsum (l : list Q) : Q := foldr Qplus 0%Q l.

Definition demo_table : list (list nat) :=
  [[0; 1; 2; 0]; [1; 1; 2; 0]; [2; 1; 0; 0]]%nat.

(** ** [PPro.__str__] *)

(** The values that can be handed to the [%] operator here. *)
Inductive pyval : Type :=
| PInt (z : Z)
| PStr (s : string).

(** What the [%] operator raises: the first three are [TypeError]s
    ("not enough arguments for format string", "not all arguments
    converted during string formatting", "%d format: a number is
    required"), the last one a [ValueError] (unsupported or incomplete
    conversion). *)
Inductive format_error : Type :=
| NotEnoughArguments
| NotAllConverted
| NumberRequired
| BadConversion.

Definition render (conv : ascii) (v : pyval) : format_error + string :=
  if decide (conv = "d"%char) then
    match v with
    | PInt z => inr (pretty z)
    | PStr _ => inl NumberRequired
    end
  else if decide (conv = "s"%char) then
    match v with
    | PInt z => inr (pretty z)
    | PStr t => inr t
    end
  else inl BadConversion.

(** [fmt % args] for a tuple [args], with the conversions [%d], [%s] and
    [%%]: the format is read from left to right and each conversion takes
    the next value. *)
Fixpoint format (fmt : string) (args : list pyval)
    : format_error + string :=
  match fmt with
  | EmptyString =>
      match args with
      | [] => inr EmptyString
      | _ :: _ => inl NotAllConverted
      end
  | String c rest =>
      if decide (c = "%"%char) then
        match rest with
        | EmptyString => inl BadConversion
        | String conv rest' =>
            if decide (conv = "%"%char) then
              match format rest' args with
              | inl e => inl e
              | inr out => inr (String "%" out)
              end
            else
              match args with
              | [] => inl NotEnoughArguments
              | v :: args' =>
                  match render conv v with
                  | inl e => inl e
                  | inr piece =>
                      match format rest' args' with
                      | inl e => inl e
                      | inr out => inr (piece +:+ out)
                      end
                  end
              end
        end
      else
        match format rest args with
        | inl e => inl e
        | inr out => inr (String c out)
        end
  end.

(** [max(self.assoc_total)] inside [try]/[except]: ['N/A'] when the
    attribute is missing or the curve is empty. *)
Definition peak (self : PPro) : pyval :=
  match assoc_total self with
  | Some (t :: tot) => PInt (foldr Z.max t tot)
  | _ => PStr "N/A"
  end.

Definition str_template : string :=
  "Point Process Object:
        Points in process #1 - %d ; Points in process #2 - %d
        Peak association number - %s ; Asymptotic association - %s
        ".

(** [PPro.__str__] (and [__repr__], which is the same function): the
    peak and the asymptotic value are looked up, and the template is
    filled from the two series lengths. *)
Definition str (self : PPro) : format_error + string :=
  let pk := peak self in
  let asy := asympt_assoc self in
  format str_template
    [PInt (Z.of_nat (length (process1 self)));
     PInt (Z.of_nat (length (process2 self)))].

(** ** [PPro.aa_ci] *)

(** Exceptions of [aa_ci]: a missing attribute, or one of the exceptions
    above. *)
Inductive pyexn : Type :=
| AttributeError
| Builtin (e : exn).

(** [for x in l: body], stopping at the first exception. *)
Fixpoint for_each {A St E : Type} (l : list A)
    (body : A → St → St * (E + unit)) (s : St) : St * (E + unit) :=
  match l with
  | [] => (s, inr tt)
  | x :: l' =>
      match body x s with
      | (s', inr _) => for_each l' body s'
      | (s', inl e) => (s', inl e)
      end
  end.

(** [np.add.reduce(x)]: the entries added up from the left. *)
Definition np_add_reduce (x : list Q) : Q := foldl Qplus 0%Q x.

(** [np.zeros([k])] *)
Definition np_zeros1 (k : nat) : list Q := replicate k 0%Q.

(** [m[:, i]]: column [i]; numpy raises [IndexError] when the array has
    no such column. *)
Definition getcol (m : ndarray2) (i : nat) : res (list Z) :=
  if decide (i < snd (shape m))%nat then
    match mapM (λ row : list Z, row !! i) (rows m) with
    | Some col => ok col
    | None => raise IndexError
    end
  else raise IndexError.

Definition set_ci (self : PPro) (v : list fval * list fval) : PPro :=
  {| process1 := process1 self; process2 := process2 self;
     lags := lags self; winhalf := winhalf self;
     n_assoc := n_assoc self; assoc_total := assoc_total self;
     asympt_assoc := asympt_assoc self; ci := Some v |}.

(** Body of the loop over the lags; the loop state is the pair of local
    arrays [(ci_low, ci_high)].  [table] is what [randint] returns in this
    call of [boots_ci]. *)
Definition aa_ci_step (self : PPro) (inter : Q) (n_boots : nat)
    (tables : nat → list (list nat)) (i : nat) (st : list Q * list Q)
    : (list Q * list Q) * (pyexn + unit) :=
  match n_assoc self with
  | None => (st, inl AttributeError)
  | Some m =>
      match getcol m i with
      | inl e => (st, inl (Builtin e))
      | inr col =>
          match boots_ci (inject_Z <$> col) n_boots inter np_add_reduce
                  (tables i) with
          | inl e => (st, inl (Builtin e))
          | inr (lo, hi) =>
              match setitem1 i lo (fst st) with
              | (ci_low, inl e) => ((ci_low, snd st), inl (Builtin e))
              | (ci_low, inr _) =>
                  match setitem1 i hi (snd st) with
                  | (ci_high, inl e) => ((ci_low, ci_high), inl (Builtin e))
                  | (ci_high, inr _) => ((ci_low, ci_high), inr tt)
                  end
              end
          end
      end
  end.

(** [PPro.aa_ci(inter, n_boots)].  [tables i] is the index table drawn
    by the [i]-th call of [boots_ci].  The attribute [ci] is assigned only
    after the loop has run through. *)
Definition aa_ci (self : PPro) (inter : Q) (n_boots : nat)
    (tables : nat → list (list nat)) : PPro * (pyexn + unit) :=
  match lags self with
  | None => (self, inl (Builtin TypeError))
  | Some lg =>
      let k := length lg in
      match for_each (seq 0 k) (aa_ci_step self inter n_boots tables)
              (np_zeros1 k, np_zeros1 k) with
      | (_, inl e) => (self, inl e)
      | ((ci_low, ci_high), inr _) =>
          (set_ci self (Fin <$> ci_low, Fin <$> ci_high), inr tt)
      end
  end.

(** ** Further definitions for the statements *)

(** Both series moved by the same offset. *)
Definition shift_series (c : Z) (self : PPro) : PPro :=
  {| process1 := (λ t, t + c) <$> process1 self;
     process2 := (λ t, t + c) <$> process2 self;
     lags := lags self; winhalf := winhalf self;
     n_assoc := n_assoc self; assoc_total := assoc_total self;
     asympt_assoc := asympt_assoc self; ci := ci self |}.

Definition pair_obj : PPro := init [0; 10] [1] (Some [0]) (Some 2).

Definition pair_done : PPro := fst (assoc pair_obj None None).

Definition twin_obj : PPro :=
  init [0; 10; 20] [0; 10; 20] (Some [-2; 0; 2]) (Some 2).

Definition twin_done : PPro := fst (assoc twin_obj None None).

(** * Properties *)

(** ** Loops *)

Section ForEnum.
Context {A St : Type}.
Variable body : nat → A → St → St * res unit.
Variable I : nat → St → Prop.

Lemma for_enum_inv (l : list A) : ∀ k s,
  I k s →
  (∀ n x s0, l !! n = Some x → I (k + n)%nat s0 →
     ∃ s1, body (k + n)%nat x s0 = (s1, ok tt) ∧ I (S (k + n)) s1) →
  ∃ s', for_enum k l body s = (s', ok tt) ∧ I (k + length l)%nat s'.
Proof.
  induction l as [|x l IH]; intros k s Hk Hstep; simpl.
  - exists s. by rewrite Nat.add_0_r.
  - destruct (Hstep 0%nat x s) as (s1 & Hb & H1).
    { done. }
    { by rewrite Nat.add_0_r. }
    rewrite Nat.add_0_r in Hb, H1. rewrite Hb.
    destruct (IH (S k) s1 H1) as (s' & Hs' & HI).
    { intros n y s0 Hy HI0.
      replace (S k + n)%nat with (k + S n)%nat in * by lia.
      by apply Hstep. }
    exists s'. split; [done|].
    by replace (k + S (length l))%nat with (S k + length l)%nat by lia.
Qed.
End ForEnum.

(** ** Count arrays *)

Lemma np_zeros2_cells R C : cells (np_zeros2 R C) R C (λ _ _, 0).
Proof.
  split; [done|]. split; simpl.
  - by rewrite length_replicate.
  - intros i row Hrow. apply lookup_replicate in Hrow as [-> _].
    split; [by rewrite length_replicate|].
    intros j Hj. by apply lookup_replicate_2.
Qed.

Lemma cells_ext m R C f g :
  cells m R C f →
  (∀ i j, (i < R)%nat → (j < C)%nat → f i j = g i j) →
  cells m R C g.
Proof.
  intros (Hs & Hl & Hc) Hfg. split; [done|]. split; [done|].
  intros i row Hrow. destruct (Hc i row Hrow) as [Hlen Hr].
  split; [done|]. intros j Hj. rewrite (Hr j Hj). f_equal.
  apply Hfg; [|done]. rewrite <- Hl. by eapply lookup_lt_Some.
Qed.

Lemma setitem2_cells m R C f i j v :
  cells m R C f → (i < R)%nat → (j < C)%nat →
  ∃ m', setitem2 i j v m = (m', ok tt) ∧
        cells m' R C (λ i' j', if decide (i' = i ∧ j' = j) then v
                               else f i' j').
Proof.
  intros (Hs & Hl & Hc) Hi Hj. unfold setitem2.
  destruct (rows m !! i) as [row|] eqn:Hrow.
  2:{ apply lookup_ge_None in Hrow. lia. }
  destruct (Hc i row Hrow) as [Hlen Hrowj].
  rewrite decide_True by lia.
  eexists. split; [done|].
  split; [done|]. split; simpl; [by rewrite length_insert|].
  intros i' row' Hrow'. destruct (decide (i' = i)) as [->|Hne].
  - rewrite list_lookup_insert_eq in Hrow' by lia. injection Hrow' as <-.
    split; [by rewrite length_insert|].
    intros j' Hj'. destruct (decide (j' = j)) as [->|Hnej].
    + rewrite decide_True by done. apply list_lookup_insert_eq. lia.
    + rewrite decide_False by tauto.
      rewrite list_lookup_insert_ne by done. by apply Hrowj.
  - rewrite list_lookup_insert_ne in Hrow' by done.
    destruct (Hc i' row' Hrow') as [Hlen' Hr]. split; [done|].
    intros j' Hj'. rewrite decide_False by tauto. by apply Hr.
Qed.

Lemma cells_getitem2 m R C f i j :
  cells m R C f → (i < R)%nat → (j < C)%nat → getitem2 m i j = Some (f i j).
Proof.
  intros (Hs & Hl & Hc) Hi Hj. unfold getitem2.
  destruct (rows m !! i) as [row|] eqn:Hrow.
  - destruct (Hc i row Hrow) as [_ Hr]. by apply Hr.
  - apply lookup_ge_None in Hrow. lia.
Qed.

(** ** The overlap query *)

Lemma find_indices_length lo hi k l :
  length (find_indices (in_window lo hi) k l) = count_in l lo hi.
Proof.
  unfold count_in. revert k. induction l as [|t l IH]; intros k; [done|].
  simpl. rewrite filter_cons. unfold in_window at 1.
  destruct (decide (lo ≤ t ≤ hi)) as [Hin|Hout].
  - replace ((lo <=? t) && (t <=? hi)) with true by (symmetry; lia).
    simpl. by rewrite IH.
  - replace ((lo <=? t) && (t <=? hi)) with false by (symmetry; lia).
    apply IH.
Qed.

Lemma tOverlap_count lo hi series :
  match tOverlap (lo, hi) series with
  | None => 0
  | Some inds => Z.of_nat (length inds)
  end = Z.of_nat (count_in series lo hi).
Proof.
  unfold tOverlap. simpl. rewrite <- (find_indices_length lo hi 0%nat).
  by destruct (find_indices _ _ _).
Qed.

(** ** The nested loops of [assoc] *)

Lemma assoc_cell_spec p1 p2 lg w ilag lag nss tp1 :
  lg !! ilag = Some lag → p1 !! nss = Some tp1 →
  assoc_cell p2 w ilag lag nss tp1
  = setitem2 nss ilag (window_count p1 p2 lg w nss ilag).
Proof.
  intros Hlag Htp. unfold assoc_cell, window_count.
  rewrite Hlag, Htp. simpl. by rewrite tOverlap_count.
Qed.

Lemma assoc_inner_cells p1 p2 lg w ilag lag m :
  lg !! ilag = Some lag →
  cells m (length p1) (length lg)
    (λ i j, if decide (j < ilag)%nat then window_count p1 p2 lg w i j
            else 0) →
  ∃ m', for_enum 0 p1 (assoc_cell p2 w ilag lag) m = (m', ok tt) ∧
        cells m' (length p1) (length lg)
          (λ i j, if decide (j < S ilag)%nat
                  then window_count p1 p2 lg w i j else 0).
Proof.
  intros Hlag Hm.
  pose proof (lookup_lt_Some _ _ _ Hlag) as Hlt.
  destruct (for_enum_inv (assoc_cell p2 w ilag lag)
    (λ t m0, cells m0 (length p1) (length lg)
       (λ i j, if decide (j < ilag ∨ (j = ilag ∧ i < t))%nat
               then window_count p1 p2 lg w i j else 0))
    p1 0%nat m) as (m' & Hrun & Hm').
  - eapply cells_ext; [exact Hm|]. intros i j _ _. simpl.
    destruct (decide (j < ilag)%nat).
    + by rewrite decide_True by lia.
    + by rewrite decide_False by lia.
  - intros n tp1 m0 Htp Hm0. simpl in *.
    pose proof (lookup_lt_Some _ _ _ Htp) as Hn.
    rewrite (assoc_cell_spec p1 p2 lg w) by done.
    destruct (setitem2_cells m0 _ _ _ n ilag
                (window_count p1 p2 lg w n ilag) Hm0 Hn Hlt)
      as (m1 & Hset & Hm1).
    exists m1. split; [done|].
    eapply cells_ext; [exact Hm1|]. intros i j _ _. simpl.
    destruct (decide (i = n ∧ j = ilag)) as [[-> ->]|Hne].
    + by rewrite decide_True by lia.
    + destruct (decide (j < ilag ∨ j = ilag ∧ i < n)%nat).
      * by rewrite decide_True by lia.
      * by rewrite decide_False by lia.
  - exists m'. split; [done|].
    eapply cells_ext; [exact Hm'|]. intros i j Hi _. simpl.
    destruct (decide (j < S ilag)%nat).
    + by rewrite decide_True by lia.
    + by rewrite decide_False by lia.
Qed.

Lemma assoc_loops_cells p1 p2 lg w :
  ∃ m, assoc_loops p1 p2 lg w (np_zeros2 (length p1) (length lg))
       = (m, ok tt) ∧
       cells m (length p1) (length lg) (window_count p1 p2 lg w).
Proof.
  unfold assoc_loops.
  destruct (for_enum_inv
    (λ ilag lag, for_enum 0 p1 (assoc_cell p2 w ilag lag))
    (λ k m0, cells m0 (length p1) (length lg)
       (λ i j, if decide (j < k)%nat then window_count p1 p2 lg w i j
               else 0))
    lg 0%nat (np_zeros2 (length p1) (length lg))) as (m & Hrun & Hm).
  - eapply cells_ext; [apply np_zeros2_cells|]. intros i j _ _.
    destruct (decide (j < 0)%nat); [lia|done].
  - intros n lag m0 Hlag Hm0. simpl in *.
    by apply assoc_inner_cells.
  - exists m. split; [done|].
    eapply cells_ext; [exact Hm|]. intros i j _ Hj. simpl.
    by rewrite decide_True by lia.
Qed.

(** ** Column sums *)

Lemma foldl_add_rows C (rs : list (list Z)) : ∀ acc,
  Forall (λ row, length row = C) rs → length acc = C →
  length (foldl add_rows acc rs) = C ∧
  ∀ j, (j < C)%nat →
    foldl add_rows acc rs !! j
    = Some (default 0 (acc !! j)
            + zsum ((λ row : list Z, default 0 (row !! j)) <$> rs)).
Proof.
  induction rs as [|row rs IH]; intros acc Hrs Hacc; simpl.
  - split; [done|]. intros j Hj.
    destruct (lookup_lt_is_Some_2 acc j) as [a Ha]; [lia|].
    rewrite Ha. simpl. f_equal. lia.
  - apply Forall_cons in Hrs as [Hrow Hrs'].
    assert (length (add_rows acc row) = C) as Hlen.
    { unfold add_rows. rewrite length_zip_with. lia. }
    destruct (IH (add_rows acc row) Hrs' Hlen) as [Hl Hj].
    split; [done|]. intros j Hlt. rewrite (Hj j Hlt). f_equal.
    destruct (lookup_lt_is_Some_2 acc j) as [a Ha]; [lia|].
    destruct (lookup_lt_is_Some_2 row j) as [b Hb]; [lia|].
    unfold add_rows, zsum. rewrite lookup_zip_with, Ha, Hb.
    simpl. rewrite <- Z.add_assoc. reflexivity.
Qed.

Lemma np_sum_axis0_cells m R C f :
  cells m R C f →
  length (np_sum_axis0 m) = C ∧
  ∀ j, (j < C)%nat → np_sum_axis0 m !! j = Some (zsum (column m j)).
Proof.
  intros (Hs & Hl & Hc). unfold np_sum_axis0, column. rewrite Hs. simpl.
  destruct (foldl_add_rows C (rows m) (replicate C 0)) as [Hlen Hj].
  - apply Forall_lookup. intros i row Hrow. by destruct (Hc i row Hrow).
  - by rewrite length_replicate.
  - split; [done|]. intros j Hlt. rewrite (Hj j Hlt).
    by rewrite lookup_replicate_2.
Qed.

Lemma cells_column m R C f i j v :
  cells m R C f → getitem2 m i j = Some v → column m j !! i = Some v.
Proof.
  intros (Hs & Hl & Hc). unfold getitem2, column. rewrite list_lookup_fmap.
  destruct (rows m !! i) as [row|]; [|done]. simpl. by intros ->.
Qed.

Lemma cells_column_length m R C f j :
  cells m R C f → length (column m j) = R.
Proof. intros (Hs & Hl & Hc). unfold column. by rewrite length_fmap. Qed.

(** ** Percentiles *)

Lemma Qle_bool_false x y : Qle_bool x y = false → (y <= x)%Q.
Proof.
  intros Hf. apply Qnot_lt_le. intros Hlt. apply Qlt_le_weak in Hlt.
  apply Qle_bool_iff in Hlt. congruence.
Qed.

Lemma insert_sorted_length x l :
  length (insert_sorted x l) = S (length l).
Proof.
  induction l as [|y l IH]; simpl; [done|].
  destruct (Qle_bool x y); simpl; [done|]. by rewrite IH.
Qed.

Lemma sort_values_length l : length (sort_values l) = length l.
Proof.
  induction l as [|x l IH]; simpl; [done|].
  by rewrite insert_sorted_length, IH.
Qed.

Lemma ascending_cons x l :
  Forall (λ y, x <= y)%Q l → ascending l → ascending (x :: l).
Proof.
  intros Hx Hl i j a b Hij Ha Hb.
  destruct i as [|i], j as [|j]; simpl in *.
  - injection Ha as <-. injection Hb as <-. apply Qle_refl.
  - injection Ha as <-. rewrite Forall_lookup in Hx. by eapply Hx.
  - lia.
  - eapply Hl; [|done..]. lia.
Qed.

Lemma ascending_tail x l : ascending (x :: l) → ascending l.
Proof.
  intros H i j a b Hij Ha Hb. apply (H (S i) (S j) a b); [lia|done..].
Qed.

Lemma ascending_head x l : ascending (x :: l) → Forall (λ y, x <= y)%Q l.
Proof.
  intros H. apply Forall_lookup. intros i y Hy.
  apply (H 0%nat (S i) x y); [lia|done..].
Qed.

Lemma insert_sorted_Forall (P : Q → Prop) x l :
  P x → Forall P l → Forall P (insert_sorted x l).
Proof.
  intros Hx Hl. induction Hl as [|y l Hy Hl IH]; simpl.
  - by constructor.
  - destruct (Qle_bool x y); repeat constructor; done.
Qed.

Lemma insert_sorted_ascending x l :
  ascending l → ascending (insert_sorted x l).
Proof.
  induction l as [|y l IH]; intros Hl; simpl.
  - apply ascending_cons; [constructor|]. intros i j a b _ Ha. by destruct i.
  - destruct (Qle_bool x y) eqn:Hxy.
    + apply Qle_bool_iff in Hxy. apply ascending_cons; [|done].
      constructor; [done|]. eapply Forall_impl; [by apply ascending_head|].
      intros z Hz. simpl in Hz. by eapply Qle_trans.
    + apply Qle_bool_false in Hxy. apply ascending_cons.
      * apply insert_sorted_Forall; [done|]. by apply ascending_head.
      * apply IH. by eapply ascending_tail.
Qed.

Lemma sort_values_ascending l : ascending (sort_values l).
Proof.
  induction l as [|x l IH]; simpl.
  - intros i j a b _ Ha. by destruct i.
  - by apply insert_sorted_ascending.
Qed.

Lemma pct_rank_nonneg n p :
  (1 ≤ n)%nat → (0 <= p)%Q → (0 <= pct_rank n p)%Q.
Proof.
  intros Hn Hp. unfold pct_rank.
  assert (1 <= inject_Z (Z.of_nat n))%Q as H1.
  { change 1%Q with (inject_Z 1). rewrite <- Zle_Qle. lia. }
  apply Qmult_le_0_compat; [|lra].
  apply Qle_shift_div_l; [reflexivity|]. lra.
Qed.

Lemma pct_rank_le_top n p :
  (1 ≤ n)%nat → (p <= 100)%Q →
  (pct_rank n p <= inject_Z (Z.of_nat n - 1))%Q.
Proof.
  intros Hn Hp. unfold pct_rank.
  assert (1 <= inject_Z (Z.of_nat n))%Q as H1.
  { change 1%Q with (inject_Z 1). rewrite <- Zle_Qle. lia. }
  assert (inject_Z (Z.of_nat n - 1) == inject_Z (Z.of_nat n) - 1)%Q as ->.
  { unfold Z.sub. rewrite inject_Z_plus. reflexivity. }
  set (N1 := (inject_Z (Z.of_nat n) - 1)%Q).
  assert (0 <= N1)%Q as HN1 by (subst N1; lra).
  assert (p / 100 <= 1)%Q as Ht.
  { apply Qle_shift_div_r; [reflexivity|]. lra. }
  rewrite <- (Qmult_1_l N1) at 2.
  by apply Qmult_le_compat_r.
Qed.

Lemma pct_rank_mono n p p' :
  (1 ≤ n)%nat → (p <= p')%Q → (pct_rank n p <= pct_rank n p')%Q.
Proof.
  intros Hn Hp. unfold pct_rank.
  assert (1 <= inject_Z (Z.of_nat n))%Q as H1.
  { change 1%Q with (inject_Z 1). rewrite <- Zle_Qle. lia. }
  apply Qmult_le_compat_r; [|lra].
  apply Qmult_le_compat_r; [done|]. discriminate.
Qed.

Lemma rank_bounds n p :
  (1 ≤ n)%nat → (0 <= p)%Q → (p <= 100)%Q →
  0 ≤ Qfloor (pct_rank n p) ∧
  Qfloor (pct_rank n p) ≤ Qceiling (pct_rank n p) ∧
  Qceiling (pct_rank n p) ≤ Z.of_nat n - 1.
Proof.
  intros Hn H0 H100. split; [|split].
  - change 0 with (Qfloor 0). apply Qfloor_resp_le.
    by apply pct_rank_nonneg.
  - rewrite Zle_Qle. eapply Qle_trans; [apply Qfloor_le|apply Qle_ceiling].
  - rewrite <- (Qceiling_Z (Z.of_nat n - 1)). apply Qceiling_resp_le.
    by apply pct_rank_le_top.
Qed.

Lemma value_at_ok values r :
  0 ≤ r → r ≤ Z.of_nat (length values) - 1 →
  ∃ v, value_at values r = ok v ∧ values !! Z.to_nat r = Some v.
Proof.
  intros H0 Hr. unfold value_at.
  replace (r <? 0) with false by (symmetry; lia).
  destruct (lookup_lt_is_Some_2 values (Z.to_nat r)) as [v Hv]; [lia|].
  exists v. by rewrite Hv.
Qed.

Lemma prctile_unfold x p :
  prctile x p =
  let! a := value_at (sort_values x) (Qfloor (pct_rank (length x) p)) in
  let! b := value_at (sort_values x) (Qceiling (pct_rank (length x) p)) in
  ok (a + (b - a) * (pct_rank (length x) p
                     - inject_Z (Qfloor (pct_rank (length x) p))))%Q.
Proof. unfold prctile, pct_rank. by rewrite sort_values_length. Qed.

Lemma prctile_ok x p :
  x ≠ [] → (0 <= p)%Q → (p <= 100)%Q →
  ∃ v, prctile x p = ok v ∧ interpolated_percentile x p v.
Proof.
  intros Hx H0 H100.
  assert (1 ≤ length x)%nat as Hn by (destruct x; [done|simpl; lia]).
  destruct (rank_bounds (length x) p Hn H0 H100) as (Hf & Hfc & Hc).
  destruct (value_at_ok (sort_values x) (Qfloor (pct_rank (length x) p)))
    as (a & Ha & Hla); [done|rewrite sort_values_length; lia|].
  destruct (value_at_ok (sort_values x) (Qceiling (pct_rank (length x) p)))
    as (b & Hb & Hlb); [lia|rewrite sort_values_length; lia|].
  rewrite prctile_unfold, Ha. simpl. rewrite Hb. simpl.
  eexists. split; [done|]. exists a, b. done.
Qed.

Lemma interp_bounds (a b t : Q) :
  (a <= b)%Q → (0 <= t)%Q → (t <= 1)%Q →
  (a <= a + (b - a) * t)%Q ∧ (a + (b - a) * t <= b)%Q.
Proof. intros Hab H0 H1. split; nra. Qed.

Lemma interp_mono (l : list Q) (r r' a b a' b' : Q) :
  ascending l → (0 <= r)%Q → (r <= r')%Q →
  l !! Z.to_nat (Qfloor r) = Some a →
  l !! Z.to_nat (Qceiling r) = Some b →
  l !! Z.to_nat (Qfloor r') = Some a' →
  l !! Z.to_nat (Qceiling r') = Some b' →
  (a + (b - a) * (r - inject_Z (Qfloor r))
   <= a' + (b' - a') * (r' - inject_Z (Qfloor r')))%Q.
Proof.
  intros Hl H0 Hrr Ha Hb Ha' Hb'.
  pose proof (Qfloor_le r) as Hfr. pose proof (Qlt_floor r) as Hrf.
  pose proof (Qfloor_le r') as Hfr'. pose proof (Qlt_floor r') as Hrf'.
  pose proof (Qfloor_resp_le _ _ Hrr) as Hff.
  pose proof (Qceiling_resp_le _ _ Hrr) as Hcc.
  assert (0 ≤ Qfloor r) as Hf0.
  { change 0 with (Qfloor 0). by apply Qfloor_resp_le. }
  assert (Qfloor r ≤ Qceiling r) as Hfc.
  { rewrite Zle_Qle. eapply Qle_trans; [apply Qfloor_le|apply Qle_ceiling]. }
  assert (Qfloor r' ≤ Qceiling r') as Hfc'.
  { rewrite Zle_Qle. eapply Qle_trans; [apply Qfloor_le|apply Qle_ceiling]. }
  assert (Qceiling r ≤ Qfloor r + 1) as Hc1.
  { rewrite <- (Qceiling_Z (Qfloor r + 1)). apply Qceiling_resp_le.
    by apply Qlt_le_weak. }
  assert (Qceiling r' ≤ Qfloor r' + 1) as Hc1'.
  { rewrite <- (Qceiling_Z (Qfloor r' + 1)). apply Qceiling_resp_le.
    by apply Qlt_le_weak. }
  rewrite inject_Z_plus in Hrf, Hrf'. change (inject_Z 1) with 1%Q in *.
  assert (a <= b)%Q as Hab by (eapply (Hl _ _ a b); [|done..]; lia).
  assert (a' <= b')%Q as Hab' by (eapply (Hl _ _ a' b'); [|done..]; lia).
  set (t := (r - inject_Z (Qfloor r))%Q).
  set (t' := (r' - inject_Z (Qfloor r'))%Q).
  assert (0 <= t)%Q as Ht0 by (subst t; lra).
  assert (t <= 1)%Q as Ht1 by (subst t; lra).
  assert (0 <= t')%Q as Ht0' by (subst t'; lra).
  assert (t' <= 1)%Q as Ht1' by (subst t'; lra).
  destruct (decide (Qceiling r ≤ Qfloor r')) as [Hle|Hgt].
  - assert (b <= a')%Q as Hba' by (eapply (Hl _ _ b a'); [|done..]; lia).
    destruct (interp_bounds a b t Hab Ht0 Ht1) as [_ Hup].
    destruct (interp_bounds a' b' t' Hab' Ht0' Ht1') as [Hlow _].
    lra.
  - assert (Qfloor r' = Qfloor r) as Hfeq by lia.
    assert (Qceiling r' = Qceiling r) as Hceq by lia.
    rewrite Hfeq in Ha'. rewrite Hceq in Hb'.
    assert (a' = a) as -> by congruence.
    assert (b' = b) as -> by congruence.
    assert (t <= t')%Q as Htt by (subst t t'; rewrite Hfeq; lra).
    nra.
Qed.

Lemma value_at_inv values r v :
  value_at values r = ok v → values !! Z.to_nat r = Some v.
Proof.
  unfold value_at. destruct (r <? 0); [done|].
  destruct (values !! Z.to_nat r); [|done]. by intros [= ->].
Qed.

Lemma prctile_mono x p p' v v' :
  x ≠ [] → (0 <= p)%Q → (p <= p')%Q →
  prctile x p = ok v → prctile x p' = ok v' → (v <= v')%Q.
Proof.
  intros Hx H0 Hpp. rewrite !prctile_unfold.
  assert (1 ≤ length x)%nat as Hn by (destruct x; [done|simpl; lia]).
  destruct (value_at _ (Qfloor (pct_rank _ p))) as [|a] eqn:Ha; [done|].
  destruct (value_at _ (Qceiling (pct_rank _ p))) as [|b] eqn:Hb; [done|].
  destruct (value_at _ (Qfloor (pct_rank _ p'))) as [|a'] eqn:Ha'; [done|].
  destruct (value_at _ (Qceiling (pct_rank _ p'))) as [|b'] eqn:Hb'; [done|].
  simpl. intros [= <-] [= <-].
  apply (interp_mono (sort_values x)); try by apply value_at_inv.
  - apply sort_values_ascending.
  - by apply pct_rank_nonneg.
  - by apply pct_rank_mono.
Qed.

(** ** The asymptotic association number *)

Lemma find_indices_ext (P P' : Z → bool) l :
  (∀ v, P v = P' v) → ∀ k, find_indices P k l = find_indices P' k l.
Proof.
  intros HP. induction l as [|t l IH]; intros k; simpl; [done|].
  by rewrite HP, !IH.
Qed.

Lemma select_find_indices (P : Z → bool) (lg : list Z) :
  ∀ (tot pre : list Z),
    length lg = length tot →
    select (P <$> lg) tot
    = (λ j, default 0 ((pre ++ tot) !! j))
        <$> find_indices P (length pre) lg.
Proof.
  induction lg as [|v lg IH]; intros tot pre Hlen; [done|].
  destruct tot as [|t tot]; [done|]. simpl in Hlen.
  assert (length lg = length tot) as Hlen' by lia.
  specialize (IH tot (pre ++ [t]) Hlen').
  rewrite length_app, Nat.add_1_r, <- app_assoc in IH.
  change ([t] ++ tot) with (t :: tot) in IH.
  rewrite fmap_cons.
  change (select (P v :: (P <$> lg)) (t :: tot))
    with (if P v then t :: select (P <$> lg) tot
          else select (P <$> lg) tot).
  change (find_indices P (length pre) (v :: lg))
    with (if P v then length pre :: find_indices P (S (length pre)) lg
          else find_indices P (S (length pre)) lg).
  destruct (P v); rewrite IH; [|done].
  rewrite fmap_cons. f_equal. by rewrite list_lookup_middle.
Qed.

Lemma select_curve_at (P : Z → bool) (lg tot : list Z) :
  length lg = length tot →
  select (P <$> lg) tot = curve_at tot (find_indices P 0 lg).
Proof. intros Hlen. by rewrite (select_find_indices P lg tot []). Qed.

Lemma rank_low c1 c2 q :
  (c1 <= c2)%Q → Nat.eqb (searchsorted [c1; c2] q) 0 = Qle_bool q c1.
Proof.
  intros Hc. simpl. destruct (Qle_bool q c1) eqn:H1; [|done].
  apply Qle_bool_iff in H1.
  assert (Qle_bool q c2 = true) as ->; [|done].
  apply Qle_bool_iff. by eapply Qle_trans.
Qed.

Lemma rank_high c1 c2 q :
  (c1 <= c2)%Q → Nat.eqb (searchsorted [c1; c2] q) 2 = negb (Qle_bool q c2).
Proof.
  intros Hc. simpl. destruct (Qle_bool q c1) eqn:H1.
  - apply Qle_bool_iff in H1.
    assert (Qle_bool q c2 = true) as ->; [|done].
    apply Qle_bool_iff. by eapply Qle_trans.
  - by destruct (Qle_bool q c2).
Qed.

Lemma asymptote_spec lg tot :
  lg ≠ [] → length tot = length lg →
  asymptote lg tot = ok (bucket_average lg tot).
Proof.
  intros Hlg Hlen. unfold asymptote, prctile_rank, bucket_average.
  assert (inject_Z <$> lg ≠ []) as Hxq by (by destruct lg).
  destruct (prctile_ok (inject_Z <$> lg) 20 Hxq) as (c1 & Hc1 & _);
    [done..|].
  destruct (prctile_ok (inject_Z <$> lg) 80 Hxq) as (c2 & Hc2 & _);
    [done..|].
  assert (c1 <= c2)%Q as Hc.
  { by apply (prctile_mono (inject_Z <$> lg) 20 80). }
  unfold low_bucket, high_bucket, lag_percentile.
  simpl fst. simpl snd. rewrite Hc1, Hc2. simpl rbind.
  unfold mask_select. rewrite <- !list_fmap_compose.
  rewrite !decide_True by (by rewrite length_fmap).
  simpl rbind. rewrite !select_curve_at by done.
  do 3 f_equal.
  - f_equal. apply find_indices_ext. intros v. by apply rank_low.
  - f_equal. apply find_indices_ext. intros v. by apply rank_high.
Qed.

(** ** The attribute check *)

Lemma check_attrs_ok self u h :
  truthy_lags (merge_lags self u) = true →
  truthy_num (merge_winhalf self h) = true →
  ∃ self', check_attrs self u h = (self', ok tt) ∧
    lags self' = merge_lags self u ∧
    winhalf self' = merge_winhalf self h ∧
    process1 self' = process1 self ∧ process2 self' = process2 self ∧
    n_assoc self' = n_assoc self ∧ assoc_total self' = assoc_total self ∧
    asympt_assoc self' = asympt_assoc self ∧ ci self' = ci self.
Proof.
  unfold check_attrs, merge_lags, merge_winhalf. intros Hl Hw.
  destruct (truthy_lags u) eqn:Hu, (truthy_num h) eqn:Hh; simpl;
    rewrite ?Hl, ?Hu, ?Hw, ?Hh; simpl; rewrite ?Hw, ?Hh; simpl;
    eexists; (split; [reflexivity|]); done.
Qed.

Lemma check_attrs_fail self u h :
  truthy_lags (merge_lags self u) = false ∨
  truthy_num (merge_winhalf self h) = false →
  ∃ self', check_attrs self u h = (self', raise AssertionError) ∧
    lags self' = merge_lags self u ∧
    same_but_lags self self'.
Proof.
  unfold check_attrs, merge_lags, merge_winhalf, same_but_lags.
  intros Hor.
  destruct (truthy_lags u) eqn:Hu; simpl; rewrite ?Hu; simpl.
  - destruct Hor as [Hl|Hw]; [congruence|].
    destruct (truthy_num h) eqn:Hh; [congruence|]. simpl. rewrite Hw.
    simpl. eexists. split; [reflexivity|]. simpl. tauto.
  - destruct (truthy_lags (lags self)) eqn:Hl; simpl.
    + destruct Hor as [?|Hw]; [congruence|].
      destruct (truthy_num h) eqn:Hh; [congruence|]. rewrite Hw.
      simpl. eexists. split; [reflexivity|]. tauto.
    + eexists. split; [reflexivity|]. tauto.
Qed.

Lemma truthy_lags_Some u :
  truthy_lags u = true ↔ ∃ lg, u = Some lg ∧ lg ≠ [].
Proof.
  split.
  - destruct u as [[|v lg]|]; try done. intros _. by exists (v :: lg).
  - intros (lg & -> & Hlg). by destruct lg.
Qed.

Lemma truthy_num_Some h :
  truthy_num h = true ↔ ∃ w, h = Some w ∧ w ≠ 0.
Proof.
  split.
  - destruct h as [w|]; [|done]. simpl. intros Hw. exists w. split; [done|].
    lia.
  - intros (w & -> & Hw). simpl. lia.
Qed.

(** ** Runs of [assoc] *)

(** A call whose merged lags and half-width are usable runs to the end
    without raising, and stores the three results. *)
Lemma assoc_run self u h lg w :
  merge_lags self u = Some lg → lg ≠ [] →
  merge_winhalf self h = Some w → w ≠ 0 →
  ∃ self' m,
    assoc self u h = (self', ReturnNone) ∧
    process1 self' = process1 self ∧ process2 self' = process2 self ∧
    lags self' = Some lg ∧ winhalf self' = Some w ∧ ci self' = ci self ∧
    n_assoc self' = Some m ∧
    cells m (length (process1 self)) (length lg)
      (window_count (process1 self) (process2 self) lg w) ∧
    assoc_total self' = Some (np_sum_axis0 m) ∧
    asympt_assoc self' = Some (bucket_average lg (np_sum_axis0 m)).
Proof.
  intros Hlg Hne Hw Hw0.
  destruct (check_attrs_ok self u h)
    as (s1 & Hchk & Hl1 & Hw1 & Hp1 & Hp2 & _ & _ & _ & Hci).
  { apply truthy_lags_Some. eauto. }
  { apply truthy_num_Some. eauto. }
  unfold assoc. rewrite Hchk, Hl1, Hw1, Hlg, Hw, Hp1, Hp2.
  destruct (assoc_loops_cells (process1 self) (process2 self) lg w)
    as (m & Hrun & Hm).
  rewrite Hrun.
  destruct (np_sum_axis0_cells _ _ _ _ Hm) as [Hlen _].
  rewrite (asymptote_spec lg (np_sum_axis0 m) Hne Hlen).
  eexists _, m. split; [reflexivity|]. simpl.
  rewrite Hp1, Hp2, Hl1, Hw1, Hci. done.
Qed.

Lemma assoc_ReturnNone_inv self u h self' :
  assoc self u h = (self', ReturnNone) →
  ∃ lg w, merge_lags self u = Some lg ∧ lg ≠ [] ∧
          merge_winhalf self h = Some w ∧ w ≠ 0.
Proof.
  intros Hrun.
  destruct (truthy_lags (merge_lags self u)) eqn:Hl;
    [destruct (truthy_num (merge_winhalf self h)) eqn:Hw|].
  - apply truthy_lags_Some in Hl as (lg & ? & ?).
    apply truthy_num_Some in Hw as (w & ? & ?). by exists lg, w.
  - destruct (check_attrs_fail self u h) as (s1 & Hchk & _); [by right|].
    unfold assoc in Hrun. by rewrite Hchk in Hrun.
  - destruct (check_attrs_fail self u h) as (s1 & Hchk & _); [by left|].
    unfold assoc in Hrun. by rewrite Hchk in Hrun.
Qed.

(** ** The bootstrap loops *)

Lemma build_data_copy_lookup data k :
  build_data_copy data !! k = data !! k.
Proof.
  unfold build_data_copy.
  destruct (for_enum_inv
    (λ el rec (d : gmap nat Q), (<[el := rec]> d, ok tt))
    (λ t d, ∀ k, d !! k = if decide (k < t)%nat then data !! k else None)
    data 0%nat ∅) as (d & Hrun & Hd).
  - intros k0. simpl. by rewrite lookup_empty.
  - intros n x d0 Hx Hd0. simpl in *. eexists. split; [done|].
    intros k0. destruct (decide (k0 = n)) as [->|Hne].
    + rewrite lookup_insert_eq. by rewrite decide_True by lia.
    + rewrite lookup_insert_ne by done. rewrite Hd0.
      destruct (decide (k0 < n)%nat).
      * by rewrite decide_True by lia.
      * by rewrite decide_False by lia.
  - rewrite Hrun. simpl in *. rewrite Hd.
    destruct (decide (k < length data)%nat) as [|Hge]; [done|].
    symmetry. apply lookup_ge_None. lia.
Qed.

Lemma column_of_draws n_els n ran_el i :
  randint_table n_els n ran_el → (i < n)%nat →
  column_of ran_el i = ok (draws ran_el i).
Proof.
  intros [_ Hrows] Hi. unfold column_of, draws.
  assert (mapM (λ row : list nat, row !! i) ran_el
          = Some ((λ row : list nat, default 0%nat (row !! i)) <$> ran_el))
    as ->; [|done].
  induction Hrows as [|row rs [Hlen _] _ IH]; [done|].
  destruct (lookup_lt_is_Some_2 row i) as [k Hk]; [lia|].
  simpl. rewrite Hk. simpl. by rewrite IH.
Qed.

Lemma draws_length n_els n ran_el i :
  randint_table n_els n ran_el → length (draws ran_el i) = n_els.
Proof. intros [Hlen _]. unfold draws. by rewrite length_fmap. Qed.

Lemma draws_in_range n_els n ran_el i :
  randint_table n_els n ran_el → (i < n)%nat →
  Forall (λ k, k < n_els)%nat (draws ran_el i).
Proof.
  intros [_ Hrows] Hi. unfold draws. apply Forall_fmap.
  eapply Forall_impl; [exact Hrows|]. intros row [Hlen Hrow]. simpl.
  destruct (lookup_lt_is_Some_2 row i) as [k Hk]; [lia|].
  rewrite Hk. simpl. rewrite Forall_lookup in Hrow. by eapply Hrow.
Qed.

Lemma setitem1_ok i v a :
  (i < length a)%nat → setitem1 i v a = (<[i := v]> a, ok tt).
Proof. intros Hi. unfold setitem1. by rewrite decide_True. Qed.

Lemma resample_loop data col surr0 :
  length col = length data →
  Forall (λ k, k < length data)%nat col →
  length surr0 = length data →
  for_enum 0 col (resample_step (build_data_copy data)) surr0
  = (resample data col, ok tt).
Proof.
  intros Hcol Hrange Hs0.
  destruct (for_enum_inv (resample_step (build_data_copy data))
    (λ t s, length s = length data ∧
            ∀ el, (el < t)%nat → s !! el = resample data col !! el)
    col 0%nat surr0) as (s & Hrun & Hlen & Hs).
  - split; [done|]. intros el Hel. lia.
  - intros n rec s0 Hrec [Hl0 Hs0']. simpl in *.
    pose proof (lookup_lt_Some _ _ _ Hrec) as Hn.
    rewrite Forall_lookup in Hrange. pose proof (Hrange n rec Hrec) as Hr.
    destruct (lookup_lt_is_Some_2 data rec) as [v Hv]; [done|].
    unfold resample_step. rewrite build_data_copy_lookup, Hv.
    rewrite setitem1_ok by lia. eexists. split; [done|].
    split; [by rewrite length_insert|].
    intros el Hel. destruct (decide (el = n)) as [->|Hne].
    + rewrite list_lookup_insert_eq by lia. unfold resample.
      rewrite list_lookup_fmap, Hrec. simpl. by rewrite Hv.
    + rewrite list_lookup_insert_ne by done. apply Hs0'. lia.
  - rewrite Hrun. f_equal. simpl in Hs.
    apply (list_eq_same_length _ _ (length data)); [|done|].
    + unfold resample. by rewrite length_fmap.
    + intros i x y Hi Hx Hy. rewrite Hs in Hx by lia. congruence.
Qed.

Lemma surrogate_loop data n func ran_el :
  randint_table (length data) n ran_el →
  ∃ surr_ser,
    for_enum 0 (seq 0 n)
      (λ _ i, surrogate_step func (build_data_copy data) ran_el i)
      (np_empty (length data), np_empty n)
    = ((surr_ser, surrogates data n func ran_el), ok tt).
Proof.
  intros Htab.
  destruct (for_enum_inv
    (λ (_ : nat) i, surrogate_step func (build_data_copy data) ran_el i)
    (λ t st, length (fst st) = length data ∧ length (snd st) = n ∧
             ∀ k, (k < t)%nat →
               snd st !! k = surrogates data n func ran_el !! k)
    (seq 0 n) 0%nat (np_empty (length data), np_empty n))
    as ([ss sq] & Hrun & Hss & Hsq & Hval).
  - unfold np_empty. simpl. rewrite !length_replicate.
    repeat split. intros k Hk. lia.
  - intros k i [ss0 sq0] Hi (Hss0 & Hsq0 & Hval0). simpl in *.
    apply lookup_seq in Hi as [-> Hk]. simpl.
    unfold surrogate_step.
    rewrite (column_of_draws (length data) n) by done. simpl.
    rewrite resample_loop;
      [|by apply (draws_length _ n)|by apply (draws_in_range _ n)|done].
    rewrite setitem1_ok by lia. eexists. split; [done|]. simpl.
    split.
    { unfold resample. rewrite length_fmap. by apply (draws_length _ n). }
    split; [by rewrite length_insert|].
    intros j Hj. destruct (decide (j = k)) as [->|Hne].
    + rewrite list_lookup_insert_eq by lia. unfold surrogates.
      rewrite list_lookup_fmap, lookup_seq_lt by done. done.
    + rewrite list_lookup_insert_ne by done. apply Hval0. lia.
  - exists ss. rewrite Hrun. do 2 f_equal. simpl in *.
    rewrite length_seq in Hval.
    apply (list_eq_same_length _ _ n); [|done|].
    + unfold surrogates. by rewrite length_fmap, length_seq.
    + intros i x y Hi Hx Hy. rewrite Hval in Hx by lia. congruence.
Qed.

Lemma surrogates_length data n func ran_el :
  length (surrogates data n func ran_el) = n.
Proof. unfold surrogates. by rewrite length_fmap, length_seq. Qed.

Lemma percentile_range inter :
  (0 < inter)%Q → (inter < 100)%Q →
  (0 <= lowPercentile inter)%Q ∧ (lowPercentile inter <= 100)%Q ∧
  (0 <= highPercentile inter)%Q ∧ (highPercentile inter <= 100)%Q.
Proof.
  intros H0 H100. unfold highPercentile, lowPercentile.
  assert ((100 - inter) / 2 == (100 - inter) * (1 # 2))%Q as ->
    by (unfold Qdiv; reflexivity).
  repeat split; lra.
Qed.

Lemma cells_getitem2_inv m R C f i j v :
  cells m R C f → getitem2 m i j = Some v →
  (i < R)%nat ∧ (j < C)%nat ∧ v = f i j.
Proof.
  intros (Hs & Hl & Hc). unfold getitem2.
  destruct (rows m !! i) as [row|] eqn:Hrow; [|done]. intros Hv.
  pose proof (lookup_lt_Some _ _ _ Hrow) as Hi.
  pose proof (lookup_lt_Some _ _ _ Hv) as Hj.
  destruct (Hc i row Hrow) as [Hlen Hr].
  split; [lia|]. split; [lia|].
  rewrite Hr in Hv by lia. congruence.
Qed.

Lemma elem_of_find_indices (P : Z → bool) l : ∀ k j,
  j ∈ find_indices P k l ↔
  (k ≤ j)%nat ∧ ∃ v, l !! (j - k)%nat = Some v ∧ P v = true.
Proof.
  induction l as [|t l IH]; intros k j; simpl.
  - split; [by intros ?%elem_of_nil|]. by intros (_ & v & ? & _).
  - assert (j ∈ find_indices P (S k) l ↔
            (k < j)%nat ∧ ∃ v, (t :: l) !! (j - k)%nat = Some v
                               ∧ P v = true) as Hrec.
    { rewrite IH. split.
      - intros (Hk & v & Hv & HP). split; [lia|]. exists v. split; [|done].
        by replace (j - k)%nat with (S (j - S k)) by lia.
      - intros (Hk & v & Hv & HP). split; [lia|]. exists v. split; [|done].
        by replace (j - k)%nat with (S (j - S k)) in Hv by lia. }
    destruct (P t) eqn:Ht.
    + rewrite elem_of_cons, Hrec. split.
      * intros [->|(Hk & Hv)].
        -- split; [lia|]. exists t. by rewrite Nat.sub_diag.
        -- split; [lia|done].
      * intros (Hk & v & Hv & HP).
        destruct (decide (j = k)) as [->|Hne]; [by left|].
        right. split; [lia|]. by exists v.
    + rewrite Hrec. split.
      * intros (Hk & Hv). split; [lia|done].
      * intros (Hk & v & Hv & HP).
        destruct (decide (j = k)) as [->|Hne].
        -- rewrite Nat.sub_diag in Hv. simpl in Hv. congruence.
        -- split; [lia|]. by exists v.
Qed.

Lemma elem_of_low_bucket lg j :
  j ∈ low_bucket lg ↔
  ∃ v, lg !! j = Some v ∧ (inject_Z v <= lag_percentile lg 20)%Q.
Proof.
  unfold low_bucket. rewrite elem_of_find_indices, Nat.sub_0_r. split.
  - intros (_ & v & Hv & HP). exists v. split; [done|].
    by apply Qle_bool_iff.
  - intros (v & Hv & HP). split; [lia|]. exists v. split; [done|].
    by apply Qle_bool_iff.
Qed.

Lemma elem_of_high_bucket lg j :
  j ∈ high_bucket lg ↔
  ∃ v, lg !! j = Some v ∧ (lag_percentile lg 80 < inject_Z v)%Q.
Proof.
  unfold high_bucket. rewrite elem_of_find_indices, Nat.sub_0_r. split.
  - intros (_ & v & Hv & HP). exists v. split; [done|].
    apply Qnot_le_lt. intros Hle. apply Qle_bool_iff in Hle.
    rewrite Hle in HP. done.
  - intros (v & Hv & HP). split; [lia|]. exists v. split; [done|].
    destruct (Qle_bool _ _) eqn:Hle; [|done].
    apply Qle_bool_iff in Hle. by apply Qlt_not_le in HP.
Qed.

Lemma unusable_lags_truthy l :
  unusable_lags l ↔ truthy_lags l = false.
Proof.
  unfold unusable_lags. destruct l as [[|v l]|]; simpl.
  - split; [done|]. by right.
  - split; [|done]. by intros [?|?].
  - split; [done|]. by left.
Qed.

Lemma unusable_winhalf_truthy h :
  unusable_winhalf h ↔ truthy_num h = false.
Proof.
  unfold unusable_winhalf. destruct h as [w|]; simpl.
  - split.
    + intros [?|[= ->]]; done.
    + intros Hw. right. f_equal. lia.
  - split; [done|]. by left.
Qed.

(** [assoc] runs to the end exactly when the merged lags and the merged
    half-width are populated. *)
Lemma assoc_succeeds_iff self u h :
  (∃ self', assoc self u h = (self', ReturnNone)) ↔
  ¬ unusable_lags (merge_lags self u) ∧
  ¬ unusable_winhalf (merge_winhalf self h).
Proof.
  rewrite unusable_lags_truthy, unusable_winhalf_truthy. split.
  - intros (self' & Hrun).
    destruct (assoc_ReturnNone_inv _ _ _ _ Hrun)
      as (lg & w & Hlg & Hne & Hw & Hw0).
    rewrite Hlg, Hw. split.
    + by destruct lg.
    + simpl. lia.
  - intros [Hl Hw].
    destruct (truthy_lags (merge_lags self u)) eqn:Hl'; [|done].
    destruct (truthy_num (merge_winhalf self h)) eqn:Hw'; [|done].
    apply truthy_lags_Some in Hl' as (lg & Hlg & Hne).
    apply truthy_num_Some in Hw' as (w & Hw1 & Hw0).
    destruct (assoc_run self u h lg w Hlg Hne Hw1 Hw0) as (s & _ & Hs & _).
    by exists s.
Qed.

(** * The claims *)

(** C1.  After every successful run of [assoc], cell [(i, j)] of the count
    matrix [n_assoc] is the number of points of series 2 lying inside the
    closed interval
    [[p1_i + lag_j - halfwidth, p1_i + lag_j + halfwidth]]; a "no match"
    answer of the overlap query is stored as the count 0.  The series are
    the stored ones, the lags and the half-width the merged ones. *)
Theorem assoc_counts_window self u h self' :
  assoc self u h = (self', ReturnNone) →
  ∃ lg w m,
    merge_lags self u = Some lg ∧ merge_winhalf self h = Some w ∧
    lags self' = Some lg ∧ winhalf self' = Some w ∧
    process1 self' = process1 self ∧ process2 self' = process2 self ∧
    n_assoc self' = Some m ∧
    shape m = (length (process1 self'), length lg) ∧
    ∀ i j p1_i lag_j,
      process1 self' !! i = Some p1_i → lg !! j = Some lag_j →
      getitem2 m i j
      = Some (Z.of_nat (count_in (process2 self')
                          (p1_i + lag_j - w) (p1_i + lag_j + w))).
Proof.
  intros Hrun.
  destruct (assoc_ReturnNone_inv _ _ _ _ Hrun) as (lg & w & Hlg & Hne & Hw & Hw0).
  destruct (assoc_run self u h lg w Hlg Hne Hw Hw0)
    as (s & m & Hs & Hp1 & Hp2 & Hl & Hwh & _ & Hn & Hm & _).
  rewrite Hs in Hrun. injection Hrun as <-.
  exists lg, w, m. rewrite Hp1, Hp2. repeat (split; [done|]).
  split; [by destruct Hm|].
  intros i j p1_i lag_j Hi Hj.
  rewrite (cells_getitem2 _ _ _ _ i j Hm)
    by (by eapply lookup_lt_Some).
  unfold window_count. by rewrite Hi, Hj.
Qed.

Lemma assoc_counts_window_witness :
  assoc demo None None = (demo_done, ReturnNone) ∧
  ∃ lg w m,
    merge_lags demo None = Some lg ∧ merge_winhalf demo None = Some w ∧
    lags demo_done = Some lg ∧ winhalf demo_done = Some w ∧
    process1 demo_done = process1 demo ∧
    process2 demo_done = process2 demo ∧
    n_assoc demo_done = Some m ∧
    shape m = (length (process1 demo_done), length lg) ∧
    ∀ i j p1_i lag_j,
      process1 demo_done !! i = Some p1_i → lg !! j = Some lag_j →
      getitem2 m i j
      = Some (Z.of_nat (count_in (process2 demo_done)
                          (p1_i + lag_j - w) (p1_i + lag_j + w))).
Proof.
  split; [reflexivity|].
  apply (assoc_counts_window demo None None demo_done). reflexivity.
Defined.

(** C2.  After every successful run of [assoc], every entry of the count
    matrix is a non-negative integer, and entry [j] of the association
    curve [assoc_total] is the sum of column [j] of the count matrix, that
    is, the sum over all series-1 indices [i] of cell [(i, j)]. *)
Theorem assoc_total_column_sums self u h self' :
  assoc self u h = (self', ReturnNone) →
  ∃ lg m tot,
    lags self' = Some lg ∧ n_assoc self' = Some m ∧
    assoc_total self' = Some tot ∧
    (∀ i j v, getitem2 m i j = Some v → 0 ≤ v) ∧
    length tot = length lg ∧
    ∀ j, (j < length lg)%nat →
      tot !! j = Some (zsum (column m j)) ∧
      length (column m j) = length (process1 self') ∧
      ∀ i, (i < length (process1 self'))%nat →
        is_Some (getitem2 m i j) ∧ column m j !! i = getitem2 m i j.
Proof.
  intros Hrun.
  destruct (assoc_ReturnNone_inv _ _ _ _ Hrun) as (lg & w & Hlg & Hne & Hw & Hw0).
  destruct (assoc_run self u h lg w Hlg Hne Hw Hw0)
    as (s & m & Hs & Hp1 & Hp2 & Hl & Hwh & _ & Hn & Hm & Htot & _).
  rewrite Hs in Hrun. injection Hrun as <-.
  destruct (np_sum_axis0_cells _ _ _ _ Hm) as [Hlen Hsum].
  exists lg, m, (np_sum_axis0 m). rewrite Hp1. repeat (split; [done|]).
  split.
  { intros i j v Hv.
    destruct (cells_getitem2_inv _ _ _ _ _ _ _ Hm Hv) as (_ & _ & ->).
    unfold window_count. lia. }
  split; [done|]. intros j Hj. split; [by apply Hsum|].
  split; [by eapply cells_column_length|].
  intros i Hi. rewrite (cells_getitem2 _ _ _ _ i j Hm) by done.
  split; [done|]. eapply cells_column; [done|].
  by apply (cells_getitem2 _ _ _ _ i j Hm).
Qed.

Lemma assoc_total_column_sums_witness :
  assoc demo None None = (demo_done, ReturnNone) ∧
  ∃ lg m tot,
    lags demo_done = Some lg ∧ n_assoc demo_done = Some m ∧
    assoc_total demo_done = Some tot ∧
    (∀ i j v, getitem2 m i j = Some v → 0 ≤ v) ∧
    length tot = length lg ∧
    ∀ j, (j < length lg)%nat →
      tot !! j = Some (zsum (column m j)) ∧
      length (column m j) = length (process1 demo_done) ∧
      ∀ i, (i < length (process1 demo_done))%nat →
        is_Some (getitem2 m i j) ∧ column m j !! i = getitem2 m i j.
Proof.
  split; [reflexivity|].
  apply (assoc_total_column_sums demo None None demo_done). reflexivity.
Defined.

(** C9.  With an empty series 1, a non-empty series 2, a non-empty lag
    set and a positive half-width, [assoc] runs to the end without an
    error: the count matrix has zero rows (and one column per lag) and the
    association curve holds one zero per lag. *)
Theorem assoc_empty_series1 self u h lg w :
  process1 self = [] → process2 self ≠ [] →
  merge_lags self u = Some lg → lg ≠ [] →
  merge_winhalf self h = Some w → 0 < w →
  ∃ self',
    assoc self u h = (self', ReturnNone) ∧
    n_assoc self' = Some {| shape := (0%nat, length lg); rows := [] |} ∧
    assoc_total self' = Some (replicate (length lg) 0).
Proof.
  intros Hp1 _ Hlg Hne Hw Hpos.
  destruct (assoc_run self u h lg w Hlg Hne Hw)
    as (s & m & Hs & _ & _ & _ & _ & _ & Hn & Hm & Htot & _); [lia|].
  rewrite Hp1 in Hm. simpl in Hm. destruct Hm as (Hshape & Hrows & _).
  apply nil_length_inv in Hrows.
  destruct m as [sh rs]. simpl in *. subst sh rs.
  exists s. by rewrite Hs, Hn, Htot.
Qed.

Lemma assoc_empty_series1_witness :
  process1 no_series1 = [] ∧ process2 no_series1 ≠ [] ∧
  merge_lags no_series1 (Some [-1; 0; 1]) = Some [-1; 0; 1] ∧
  [-1; 0; 1] ≠ [] ∧
  merge_winhalf no_series1 None = Some 3 ∧ 0 < 3 ∧
  ∃ self',
    assoc no_series1 (Some [-1; 0; 1]) None = (self', ReturnNone) ∧
    n_assoc self'
    = Some {| shape := (0%nat, length [-1; 0; 1]); rows := [] |} ∧
    assoc_total self' = Some (replicate (length [-1; 0; 1]) 0).
Proof.
  split; [reflexivity|]. split; [discriminate|]. split; [reflexivity|].
  split; [discriminate|]. split; [reflexivity|]. split; [lia|].
  apply (assoc_empty_series1 no_series1 (Some [-1; 0; 1]) None [-1; 0; 1] 3);
    [reflexivity|discriminate|reflexivity|discriminate|reflexivity|lia].
Defined.

(** C10.  [swap] exchanges [process1] and [process2] and leaves every
    other attribute as it is: the lags, the half-width and the derived
    results of an earlier [assoc] (count matrix, association curve,
    asymptotic association, confidence intervals) stay attached.  Swapping
    twice gives the object back. *)
Theorem swap_exchanges_series_only self :
  process1 (swap self) = process2 self ∧
  process2 (swap self) = process1 self ∧
  lags (swap self) = lags self ∧
  winhalf (swap self) = winhalf self ∧
  n_assoc (swap self) = n_assoc self ∧
  assoc_total (swap self) = assoc_total self ∧
  asympt_assoc (swap self) = asympt_assoc self ∧
  ci (swap self) = ci self ∧
  swap (swap self) = self.
Proof. by destruct self. Qed.

(** C5, as the code has it.  When, after merging the call-time arguments
    over the stored attributes, the lags or the half-width are still not
    populated ([None], an empty lag list, or a zero half-width), [assoc]
    gives up with its error message before any analysis: the series, the
    half-width and the derived results on the object are as before the
    call.  The stored lags are the merged ones: call-time lags that are
    non-empty have been stored already. *)
Theorem assoc_unpopulated_fails self u h :
  unusable_lags (merge_lags self u) ∨
  unusable_winhalf (merge_winhalf self h) →
  ∃ self',
    assoc self u h = (self', ReturnStr assoc_error_msg) ∧
    lags self' = merge_lags self u ∧
    same_but_lags self self'.
Proof.
  rewrite unusable_lags_truthy, unusable_winhalf_truthy. intros Hor.
  destruct (check_attrs_fail self u h Hor) as (s & Hchk & Hl & Hsame).
  exists s. unfold assoc. by rewrite Hchk.
Qed.

Lemma assoc_unpopulated_fails_witness :
  (unusable_lags (merge_lags bare (Some [1])) ∨
   unusable_winhalf (merge_winhalf bare None)) ∧
  ∃ self',
    assoc bare (Some [1]) None = (self', ReturnStr assoc_error_msg) ∧
    lags self' = merge_lags bare (Some [1]) ∧
    same_but_lags bare self'.
Proof.
  split; [right; left; reflexivity|].
  apply (assoc_unpopulated_fails bare (Some [1]) None).
  right. left. reflexivity.
Defined.

(** C5 as stated fails: a call with usable call-time lags but no
    half-width gives up with the error message, and the stored lags are
    no longer what they were before the call. *)
Lemma assoc_failed_call_stores_lags :
  unusable_winhalf (merge_winhalf bare None) ∧
  snd (assoc bare (Some [1]) None) = ReturnStr assoc_error_msg ∧
  lags bare = None ∧
  lags (fst (assoc bare (Some [1]) None)) = Some [1] ∧
  lags (fst (assoc bare (Some [1]) None)) ≠ lags bare.
Proof.
  split; [by left|]. split; [reflexivity|]. split; [reflexivity|].
  split; [reflexivity|]. discriminate.
Qed.

Lemma np_mean_nonempty (l : list Z) :
  l ≠ [] →
  np_mean l
  = Fin (inject_Z (foldr Z.add 0 l) / inject_Z (Z.of_nat (length l))).
Proof. by destruct l. Qed.

Lemma curve_at_length tot idxs : length (curve_at tot idxs) = length idxs.
Proof. unfold curve_at. by rewrite length_fmap. Qed.

Lemma curve_at_nonempty tot idxs : idxs ≠ [] → curve_at tot idxs ≠ [].
Proof. by destruct idxs. Qed.

(** C6.  After every successful run of [assoc], the asymptotic
    association number is the average of two regional means of the
    association curve.  The low bucket holds the lag indices whose lag
    value is at most the 20th percentile of the lag values, the high
    bucket those whose lag value exceeds the 80th percentile of the lag
    values; the buckets are fixed by the lag values alone, and the lags in
    between enter neither mean.  With both buckets non-empty the number
    stored is

      (sum of the curve over the low bucket / size of the low bucket
       + sum of the curve over the high bucket / size of the high bucket)
      / 2;

    with an empty bucket that mean does not exist and NaN is stored. *)
Theorem asympt_assoc_bucket_means self u h self' :
  assoc self u h = (self', ReturnNone) →
  ∃ lg tot,
    lags self' = Some lg ∧ assoc_total self' = Some tot ∧
    (low_bucket lg ≠ [] → high_bucket lg ≠ [] →
     asympt_assoc self'
     = Some (Fin ((inject_Z (foldr Z.add 0 (curve_at tot (low_bucket lg)))
                   / inject_Z (Z.of_nat (length (low_bucket lg)))
                   + inject_Z
                       (foldr Z.add 0 (curve_at tot (high_bucket lg)))
                     / inject_Z (Z.of_nat (length (high_bucket lg))))
                  / 2))) ∧
    (low_bucket lg = [] ∨ high_bucket lg = [] →
     asympt_assoc self' = Some NaN) ∧
    (∀ j v, curve_at tot (low_bucket lg) !! j = Some v →
            ∃ k, low_bucket lg !! j = Some k ∧ tot !! k = Some v) ∧
    (∀ j v, curve_at tot (high_bucket lg) !! j = Some v →
            ∃ k, high_bucket lg !! j = Some k ∧ tot !! k = Some v) ∧
    (∀ j, j ∈ low_bucket lg ↔
          ∃ v, lg !! j = Some v ∧ (inject_Z v <= lag_percentile lg 20)%Q) ∧
    (∀ j, j ∈ high_bucket lg ↔
          ∃ v, lg !! j = Some v ∧ (lag_percentile lg 80 < inject_Z v)%Q) ∧
    interpolated_percentile (inject_Z <$> lg) 20 (lag_percentile lg 20) ∧
    interpolated_percentile (inject_Z <$> lg) 80 (lag_percentile lg 80).
Proof.
  intros Hrun.
  destruct (assoc_ReturnNone_inv _ _ _ _ Hrun) as (lg & w & Hlg & Hne & Hw & Hw0).
  destruct (assoc_run self u h lg w Hlg Hne Hw Hw0)
    as (s & m & Hs & _ & _ & Hl & _ & _ & _ & Hm & Htot & Hasy).
  rewrite Hs in Hrun. injection Hrun as <-.
  destruct (np_sum_axis0_cells _ _ _ _ Hm) as [Hlen _].
  assert (∀ idxs j v,
            (∀ k, k ∈ idxs → (k < length lg)%nat) →
            curve_at (np_sum_axis0 m) idxs !! j = Some v →
            ∃ k, idxs !! j = Some k ∧ np_sum_axis0 m !! k = Some v)
    as Hcurve.
  { intros idxs j v Hin Hv. unfold curve_at in Hv.
    rewrite list_lookup_fmap in Hv.
    destruct (idxs !! j) as [k|] eqn:Hk; [|done]. simpl in Hv.
    exists k. split; [done|].
    assert (k < length lg)%nat as Hlt
      by (by eapply Hin, list_elem_of_lookup_2).
    destruct (lookup_lt_is_Some_2 (np_sum_axis0 m) k) as [t Ht]; [lia|].
    rewrite Ht in Hv. simpl in Hv. congruence. }
  exists lg, (np_sum_axis0 m). repeat (split; [done|]).
  split.
  { intros HL HR. rewrite Hasy. unfold bucket_average.
    rewrite !np_mean_nonempty by (by apply curve_at_nonempty).
    by rewrite !curve_at_length. }
  split.
  { intros Hempty. rewrite Hasy. unfold bucket_average.
    destruct Hempty as [-> | ->]; simpl; [done|].
    by destruct (np_mean _). }
  split.
  { intros j v. apply Hcurve. intros k Hk.
    apply elem_of_low_bucket in Hk as (x & Hx & _).
    by eapply lookup_lt_Some. }
  split.
  { intros j v. apply Hcurve. intros k Hk.
    apply elem_of_high_bucket in Hk as (x & Hx & _).
    by eapply lookup_lt_Some. }
  split; [apply elem_of_low_bucket|]. split; [apply elem_of_high_bucket|].
  assert (inject_Z <$> lg ≠ []) as Hxq by (by destruct lg).
  unfold lag_percentile.
  destruct (prctile_ok (inject_Z <$> lg) 20 Hxq) as (c1 & -> & Hc1);
    [done..|].
  destruct (prctile_ok (inject_Z <$> lg) 80 Hxq) as (c2 & -> & Hc2);
    [done..|].
  done.
Qed.

Lemma asympt_assoc_bucket_means_witness :
  assoc demo None None = (demo_done, ReturnNone) ∧
  low_bucket [-2; 0; 2] = [0%nat] ∧ high_bucket [-2; 0; 2] = [2%nat] ∧
  assoc_total demo_done = Some [0; 3; 3] ∧
  asympt_assoc demo_done = Some (Fin (3 # 2)) ∧
  ∃ lg tot,
    lags demo_done = Some lg ∧ assoc_total demo_done = Some tot ∧
    (low_bucket lg ≠ [] → high_bucket lg ≠ [] →
     asympt_assoc demo_done
     = Some (Fin ((inject_Z (foldr Z.add 0 (curve_at tot (low_bucket lg)))
                   / inject_Z (Z.of_nat (length (low_bucket lg)))
                   + inject_Z
                       (foldr Z.add 0 (curve_at tot (high_bucket lg)))
                     / inject_Z (Z.of_nat (length (high_bucket lg))))
                  / 2))) ∧
    (low_bucket lg = [] ∨ high_bucket lg = [] →
     asympt_assoc demo_done = Some NaN) ∧
    (∀ j v, curve_at tot (low_bucket lg) !! j = Some v →
            ∃ k, low_bucket lg !! j = Some k ∧ tot !! k = Some v) ∧
    (∀ j v, curve_at tot (high_bucket lg) !! j = Some v →
            ∃ k, high_bucket lg !! j = Some k ∧ tot !! k = Some v) ∧
    (∀ j, j ∈ low_bucket lg ↔
          ∃ v, lg !! j = Some v ∧ (inject_Z v <= lag_percentile lg 20)%Q) ∧
    (∀ j, j ∈ high_bucket lg ↔
          ∃ v, lg !! j = Some v ∧ (lag_percentile lg 80 < inject_Z v)%Q) ∧
    interpolated_percentile (inject_Z <$> lg) 20 (lag_percentile lg 20) ∧
    interpolated_percentile (inject_Z <$> lg) 80 (lag_percentile lg 80).
Proof.
  split; [reflexivity|]. split; [reflexivity|]. split; [reflexivity|].
  split; [reflexivity|]. split; [reflexivity|].
  apply (asympt_assoc_bucket_means demo None None demo_done). reflexivity.
Defined.

(** C7, as the code has it.  When one of the two percentile buckets is
    empty, [assoc] still runs to the end without an error: the count
    matrix and the association curve are stored, and the asymptotic
    association number stored is NaN. *)
Theorem assoc_empty_bucket_nan self u h lg w :
  merge_lags self u = Some lg → lg ≠ [] →
  merge_winhalf self h = Some w → w ≠ 0 →
  low_bucket lg = [] ∨ high_bucket lg = [] →
  ∃ self',
    assoc self u h = (self', ReturnNone) ∧
    is_Some (n_assoc self') ∧ is_Some (assoc_total self') ∧
    asympt_assoc self' = Some NaN.
Proof.
  intros Hlg Hne Hw Hw0 Hempty.
  destruct (assoc_run self u h lg w Hlg Hne Hw Hw0)
    as (s & m & Hs & _ & _ & _ & _ & _ & Hn & _ & Htot & Hasy).
  exists s. rewrite Hn, Htot, Hasy. repeat (split; [done|]).
  f_equal. unfold bucket_average.
  destruct Hempty as [-> | ->]; simpl; [done|].
  by destruct (np_mean _).
Qed.

Lemma assoc_empty_bucket_nan_witness :
  merge_lags bare (Some [0]) = Some [0] ∧ [0] ≠ [] ∧
  merge_winhalf bare (Some 1) = Some 1 ∧ 1 ≠ 0 ∧
  (low_bucket [0] = [] ∨ high_bucket [0] = []) ∧
  ∃ self',
    assoc bare (Some [0]) (Some 1) = (self', ReturnNone) ∧
    is_Some (n_assoc self') ∧ is_Some (assoc_total self') ∧
    asympt_assoc self' = Some NaN.
Proof.
  split; [reflexivity|]. split; [discriminate|]. split; [reflexivity|].
  split; [lia|]. split; [right; reflexivity|].
  apply (assoc_empty_bucket_nan bare (Some [0]) (Some 1) [0] 1);
    [reflexivity|discriminate|reflexivity|lia|right; reflexivity].
Defined.

(** C7 as stated fails: with a single lag the upper bucket is empty, yet
    [assoc] returns normally and stores NaN. *)
Lemma assoc_empty_bucket_no_error :
  high_bucket [0] = [] ∧
  snd (assoc bare (Some [0]) (Some 1)) = ReturnNone ∧
  asympt_assoc (fst (assoc bare (Some [0]) (Some 1))) = Some NaN.
Proof. repeat split; reflexivity. Qed.

(** C3.  For a confidence level strictly between 0 and 100, at least one
    resample and more than two counts, [boots_ci] returns a pair
    [(lower, upper)].  The surrogate distribution has one value per
    resample: the statistic applied to the resampled vector, which has as
    many entries as the counts, entry [el] being the count at the index
    drawn for it.  [lower] and [upper] are the percentiles of the
    surrogate distribution at [(100 - level)/2] and at
    [level + (100 - level)/2], by linear interpolation between the sorted
    surrogate values at the floor and at the ceiling of the rank
    [p/100 * (size - 1)]. *)
Theorem boots_ci_percentile_interval data n inter func ran_el :
  (0 < inter)%Q → (inter < 100)%Q → (1 ≤ n)%nat → (2 < length data)%nat →
  randint_table (length data) n ran_el →
  ∃ lower upper,
    boots_ci data n inter func ran_el = ok (lower, upper) ∧
    length (surrogates data n func ran_el) = n ∧
    (∀ i, (i < n)%nat →
       surrogates data n func ran_el !! i
       = Some (func (resample data (draws ran_el i))) ∧
       length (resample data (draws ran_el i)) = length data ∧
       ∀ el, (el < length data)%nat →
         ∃ k, draws ran_el i !! el = Some k ∧ (k < length data)%nat ∧
              resample data (draws ran_el i) !! el = data !! k) ∧
    lowPercentile inter = ((100 - inter) / 2)%Q ∧
    highPercentile inter = (inter + lowPercentile inter)%Q ∧
    interpolated_percentile (surrogates data n func ran_el)
      (lowPercentile inter) lower ∧
    interpolated_percentile (surrogates data n func ran_el)
      (highPercentile inter) upper.
Proof.
  intros H0 H100 Hn Hdata Htab.
  destruct (percentile_range inter H0 H100) as (Hl0 & Hl100 & Hh0 & Hh100).
  destruct (surrogate_loop data n func ran_el Htab) as (ss & Hloop).
  assert (surrogates data n func ran_el ≠ []) as Hne.
  { intros Hnil. pose proof (surrogates_length data n func ran_el) as Hlen.
    rewrite Hnil in Hlen. simpl in Hlen. lia. }
  destruct (prctile_ok _ (lowPercentile inter) Hne Hl0 Hl100)
    as (lower & Hlow & Hlower).
  destruct (prctile_ok _ (highPercentile inter) Hne Hh0 Hh100)
    as (upper & Hhigh & Hupper).
  exists lower, upper. split.
  { unfold boots_ci. rewrite decide_True by done. rewrite Hloop.
    fold (lowPercentile inter). fold (highPercentile inter).
    rewrite Hlow. simpl. rewrite Hhigh. done. }
  split; [apply surrogates_length|].
  split; [|done].
  intros i Hi. split.
  { unfold surrogates. by rewrite list_lookup_fmap, lookup_seq_lt. }
  pose proof (draws_length _ _ _ i Htab) as Hdl.
  split; [unfold resample; by rewrite length_fmap|].
  intros el Hel.
  destruct (lookup_lt_is_Some_2 (draws ran_el i) el) as [k Hk]; [lia|].
  exists k. split; [done|].
  pose proof (draws_in_range _ _ _ i Htab Hi) as Hrange.
  rewrite Forall_lookup in Hrange. pose proof (Hrange el k Hk) as Hlt.
  split; [done|]. unfold resample. rewrite list_lookup_fmap, Hk. simpl.
  destruct (lookup_lt_is_Some_2 data k) as [v Hv]; [done|]. by rewrite Hv.
Qed.

Lemma boots_ci_percentile_interval_witness :
  (0 < 95)%Q ∧ (95 < 100)%Q ∧ (1 ≤ 4)%nat ∧
  (2 < length [1; 2; 3]%Q)%nat ∧
  randint_table (length [1; 2; 3]%Q) 4 demo_table ∧
  ∃ lower upper,
    boots_ci [1; 2; 3]%Q 4 95 qsum demo_table = ok (lower, upper) ∧
    length (surrogates [1; 2; 3]%Q 4 qsum demo_table) = 4%nat ∧
    (∀ i, (i < 4)%nat →
       surrogates [1; 2; 3]%Q 4 qsum demo_table !! i
       = Some (qsum (resample [1; 2; 3]%Q (draws demo_table i))) ∧
       length (resample [1; 2; 3]%Q (draws demo_table i))
       = length [1; 2; 3]%Q ∧
       ∀ el, (el < length [1; 2; 3]%Q)%nat →
         ∃ k, draws demo_table i !! el = Some k ∧
              (k < length [1; 2; 3]%Q)%nat ∧
              resample [1; 2; 3]%Q (draws demo_table i) !! el
              = [1; 2; 3]%Q !! k) ∧
    lowPercentile 95 = ((100 - 95) / 2)%Q ∧
    highPercentile 95 = (95 + lowPercentile 95)%Q ∧
    interpolated_percentile (surrogates [1; 2; 3]%Q 4 qsum demo_table)
      (lowPercentile 95) lower ∧
    interpolated_percentile (surrogates [1; 2; 3]%Q 4 qsum demo_table)
      (highPercentile 95) upper.
Proof.
  assert (randint_table (length [1; 2; 3]%Q) 4 demo_table) as Htab.
  { split; [reflexivity|].
    repeat (constructor; [split; [reflexivity|]; repeat constructor|]).
    constructor. }
  split; [reflexivity|]. split; [reflexivity|]. split; [lia|].
  split; [simpl; lia|]. split; [exact Htab|].
  apply (boots_ci_percentile_interval [1; 2; 3]%Q 4 95 qsum demo_table);
    [reflexivity|reflexivity|lia|simpl; lia|exact Htab].
Defined.

(** C4.  On counts of length 0, 1 or 2, whatever the number of resamples,
    the confidence level, the statistic and the random draws, [boots_ci]
    does not return an interval: the call ends in an exception (the
    unpacking of a single NaN into two names raises [TypeError]). *)
Theorem boots_ci_short_input data n inter func ran_el :
  (length data ≤ 2)%nat →
  boots_ci data n inter func ran_el = raise TypeError.
Proof.
  intros Hlen. unfold boots_ci. by rewrite decide_False by lia.
Qed.

Lemma boots_ci_short_input_witness :
  (length [1; 2]%Q ≤ 2)%nat ∧
  boots_ci [1; 2]%Q 4 95 qsum demo_table = raise TypeError.
Proof.
  split; [simpl; lia|].
  apply (boots_ci_short_input [1; 2]%Q 4 95 qsum demo_table). simpl. lia.
Defined.

(** * Further properties of the code *)

(** ** Counting inside windows *)

Lemma count_in_mono l lo hi lo' hi' :
  lo' ≤ lo → hi ≤ hi' → (count_in l lo hi ≤ count_in l lo' hi')%nat.
Proof.
  intros Hlo Hhi. unfold count_in. induction l as [|t l IH]; [done|].
  rewrite !filter_cons.
  destruct (decide (lo ≤ t ≤ hi)), (decide (lo' ≤ t ≤ hi')); simpl; lia.
Qed.

Lemma count_in_le_length l lo hi : (count_in l lo hi ≤ length l)%nat.
Proof. unfold count_in. apply length_filter. Qed.

Lemma count_in_shift c l lo hi :
  count_in ((λ t, t + c) <$> l) (lo + c) (hi + c) = count_in l lo hi.
Proof.
  unfold count_in. induction l as [|t l IH]; [done|].
  rewrite fmap_cons, !filter_cons.
  destruct (decide (lo + c ≤ t + c ≤ hi + c)), (decide (lo ≤ t ≤ hi));
    simpl; lia.
Qed.

(** ** More on count arrays *)

Lemma cells_unique m m' R C f : cells m R C f → cells m' R C f → m = m'.
Proof.
  intros (Hs & Hl & Hc) (Hs' & Hl' & Hc').
  destruct m as [sh rs], m' as [sh' rs']. simpl in *. subst sh sh'.
  f_equal. apply (list_eq_same_length _ _ R); [done..|].
  intros i row row' Hi Hrow Hrow'.
  destruct (Hc i row Hrow) as [Hlen Hr].
  destruct (Hc' i row' Hrow') as [Hlen' Hr'].
  apply (list_eq_same_length _ _ C); [done..|].
  intros j x y Hj Hx Hy. rewrite Hr in Hx by done.
  rewrite Hr' in Hy by done. congruence.
Qed.

Lemma cells_column_eq m R C f j :
  cells m R C f → (j < C)%nat → column m j = (λ i, f i j) <$> seq 0 R.
Proof.
  intros (Hs & Hl & Hc) Hj. unfold column.
  apply (list_eq_same_length _ _ R);
    [by rewrite length_fmap, length_seq|by rewrite length_fmap|].
  intros i x y Hi Hx Hy.
  rewrite list_lookup_fmap in Hx. rewrite list_lookup_fmap in Hy.
  rewrite lookup_seq_lt in Hy by done. simpl in Hy.
  destruct (rows m !! i) as [row|] eqn:Hrow; [|done]. simpl in Hx.
  destruct (Hc i row Hrow) as [_ Hr]. rewrite (Hr j Hj) in Hx.
  simpl in Hx. congruence.
Qed.

Lemma zsum_fmap_le {A} (f g : A → Z) (l : list A) :
  (∀ x, x ∈ l → f x ≤ g x) → zsum (f <$> l) ≤ zsum (g <$> l).
Proof.
  unfold zsum. induction l as [|x l IH]; intros Hfg; [done|].
  rewrite !fmap_cons. simpl.
  pose proof (Hfg x (list_elem_of_here _ _)) as Hx.
  assert (∀ y, y ∈ l → f y ≤ g y) as Hl.
  { intros y Hy. apply Hfg. by apply list_elem_of_further. }
  specialize (IH Hl). lia.
Qed.

Lemma zsum_fmap_const {A} (f : A → Z) (c : Z) (l : list A) :
  (∀ x, f x = c) → zsum (f <$> l) = Z.of_nat (length l) * c.
Proof.
  intros Hf. unfold zsum. induction l as [|x l IH]; [done|].
  rewrite fmap_cons. simpl foldr. rewrite IH, Hf. simpl length. lia.
Qed.

(** ** Further properties of [assoc] *)

(** X1.  [assoc] never lets an exception escape: a call either returns
    [None] or returns the error message. *)
Theorem assoc_never_raises self u h :
  snd (assoc self u h) = ReturnNone ∨
  snd (assoc self u h) = ReturnStr assoc_error_msg.
Proof.
  destruct (truthy_lags (merge_lags self u)) eqn:Hl;
    [destruct (truthy_num (merge_winhalf self h)) eqn:Hw|].
  - apply truthy_lags_Some in Hl as (lg & Hlg & Hne).
    apply truthy_num_Some in Hw as (w & Hw & Hw0).
    destruct (assoc_run self u h lg w Hlg Hne Hw Hw0) as (s & m & -> & _).
    by left.
  - destruct (check_attrs_fail self u h) as (s & Hchk & _); [by right|].
    right. unfold assoc. by rewrite Hchk.
  - destruct (check_attrs_fail self u h) as (s & Hchk & _); [by left|].
    right. unfold assoc. by rewrite Hchk.
Qed.

(** X2.  Whatever the outcome, [assoc] leaves the two series and the
    confidence intervals on the object as they are: intervals computed
    from an earlier run stay attached when the analysis is run again. *)
Theorem assoc_keeps_series_and_ci self u h :
  process1 (fst (assoc self u h)) = process1 self ∧
  process2 (fst (assoc self u h)) = process2 self ∧
  ci (fst (assoc self u h)) = ci self ∧
  len (fst (assoc self u h)) = len self.
Proof.
  assert (process1 (fst (assoc self u h)) = process1 self ∧
          process2 (fst (assoc self u h)) = process2 self ∧
          ci (fst (assoc self u h)) = ci self) as (H1 & H2 & H3).
  { destruct (truthy_lags (merge_lags self u)) eqn:Hl;
      [destruct (truthy_num (merge_winhalf self h)) eqn:Hw|].
    - apply truthy_lags_Some in Hl as (lg & Hlg & Hne).
      apply truthy_num_Some in Hw as (w & Hw & Hw0).
      destruct (assoc_run self u h lg w Hlg Hne Hw Hw0)
        as (s & m & -> & ? & ? & _ & _ & ? & _). done.
    - destruct (check_attrs_fail self u h) as (s & Hchk & _ & Hsame);
        [by right|].
      unfold assoc. rewrite Hchk. simpl.
      unfold same_but_lags in Hsame. tauto.
    - destruct (check_attrs_fail self u h) as (s & Hchk & _ & Hsame);
        [by left|].
      unfold assoc. rewrite Hchk. simpl.
      unfold same_but_lags in Hsame. tauto. }
  unfold len. by rewrite H1.
Qed.

(** X3.  Running [assoc] again without arguments on an object on which
    it has succeeded succeeds and gives the same object: the stored lags
    and half-width are the ones of the run, and the results are
    recomputed to the same values. *)
Theorem assoc_rerun_same self u h self' :
  assoc self u h = (self', ReturnNone) →
  assoc self' None None = (self', ReturnNone).
Proof.
  intros Hrun.
  destruct (assoc_ReturnNone_inv _ _ _ _ Hrun)
    as (lg & w & Hlg & Hne & Hw & Hw0).
  destruct (assoc_run self u h lg w Hlg Hne Hw Hw0)
    as (s & m & Hs & Hp1 & Hp2 & Hl & Hwh & Hci & Hn & Hm & Htot & Hasy).
  rewrite Hs in Hrun. injection Hrun as <-.
  destruct (assoc_run s None None lg w) as
    (s2 & m2 & Hs2 & Hp1' & Hp2' & Hl' & Hwh' & Hci' & Hn' & Hm' & Htot'
     & Hasy'); [done..|].
  rewrite Hp1, Hp2 in Hm'.
  assert (m2 = m) as -> by (by eapply cells_unique).
  rewrite Hs2. f_equal.
  destruct s, s2. simpl in *. congruence.
Qed.

Lemma assoc_rerun_same_witness :
  assoc demo None None = (demo_done, ReturnNone) ∧
  assoc demo_done None None = (demo_done, ReturnNone).
Proof.
  split; [reflexivity|].
  apply (assoc_rerun_same demo None None demo_done). reflexivity.
Defined.

(** X4.  Once [assoc] has succeeded, every later call on the object
    succeeds, whatever arguments it is given: the stored lags and
    half-width stay populated. *)
Theorem assoc_after_success self u h self' u' h' :
  assoc self u h = (self', ReturnNone) →
  ∃ self'', assoc self' u' h' = (self'', ReturnNone).
Proof.
  intros Hrun.
  destruct (assoc_ReturnNone_inv _ _ _ _ Hrun)
    as (lg & w & Hlg & Hne & Hw & Hw0).
  destruct (assoc_run self u h lg w Hlg Hne Hw Hw0)
    as (s & m & Hs & _ & _ & Hl & Hwh & _).
  rewrite Hs in Hrun. injection Hrun as <-.
  assert (truthy_lags (merge_lags s u') = true) as Hl'.
  { unfold merge_lags. destruct (truthy_lags u') eqn:Hu; [done|].
    rewrite Hl. by destruct lg. }
  assert (truthy_num (merge_winhalf s h') = true) as Hw'.
  { unfold merge_winhalf. destruct (truthy_num h') eqn:Hh; [done|].
    rewrite Hwh. simpl. lia. }
  apply truthy_lags_Some in Hl' as (lg' & Hlg' & Hne').
  apply truthy_num_Some in Hw' as (w' & Hw1 & Hw0').
  destruct (assoc_run s u' h' lg' w' Hlg' Hne' Hw1 Hw0') as (s2 & _ & Hs2 & _).
  by exists s2.
Qed.

Lemma assoc_after_success_witness :
  assoc demo None None = (demo_done, ReturnNone) ∧
  ∃ self'', assoc demo_done (Some []) (Some 0) = (self'', ReturnNone).
Proof.
  split; [reflexivity|].
  apply (assoc_after_success demo None None demo_done (Some []) (Some 0)).
  reflexivity.
Defined.

(** X5.  Widening the window never lowers a count: for two successful
    runs on the same object with the same lags and half-widths [w ≤ w'],
    every cell of the count matrix and every entry of the association
    curve of the first run is at most the one of the second run. *)
Theorem assoc_wider_window self u h h' w w' s1 s2 :
  assoc self u h = (s1, ReturnNone) →
  assoc self u h' = (s2, ReturnNone) →
  merge_winhalf self h = Some w → merge_winhalf self h' = Some w' →
  w ≤ w' →
  ∃ m1 m2 t1 t2,
    n_assoc s1 = Some m1 ∧ n_assoc s2 = Some m2 ∧
    assoc_total s1 = Some t1 ∧ assoc_total s2 = Some t2 ∧
    (∀ i j v1 v2, getitem2 m1 i j = Some v1 → getitem2 m2 i j = Some v2 →
                  v1 ≤ v2) ∧
    (∀ j v1 v2, t1 !! j = Some v1 → t2 !! j = Some v2 → v1 ≤ v2).
Proof.
  intros Hrun1 Hrun2 Hw Hw' Hle.
  destruct (assoc_ReturnNone_inv _ _ _ _ Hrun1)
    as (lg & w1 & Hlg & Hne & Hw1 & Hw10).
  destruct (assoc_ReturnNone_inv _ _ _ _ Hrun2)
    as (lg2 & w2 & Hlg2 & _ & Hw2 & Hw20).
  assert (lg2 = lg) as -> by congruence.
  assert (w1 = w) as -> by congruence.
  assert (w2 = w') as -> by congruence.
  destruct (assoc_run self u h lg w Hlg Hne Hw Hw10)
    as (r1 & m1 & Hs1 & _ & _ & _ & _ & _ & Hn1 & Hm1 & Ht1 & _).
  destruct (assoc_run self u h' lg w' Hlg Hne Hw' Hw20)
    as (r2 & m2 & Hs2 & _ & _ & _ & _ & _ & Hn2 & Hm2 & Ht2 & _).
  rewrite Hs1 in Hrun1. injection Hrun1 as <-.
  rewrite Hs2 in Hrun2. injection Hrun2 as <-.
  assert (∀ i j, window_count (process1 self) (process2 self) lg w i j
                 ≤ window_count (process1 self) (process2 self) lg w' i j)
    as Hcell.
  { intros i j. unfold window_count. apply inj_le.
    apply count_in_mono; lia. }
  exists m1, m2, (np_sum_axis0 m1), (np_sum_axis0 m2).
  repeat (split; [done|]). split.
  - intros i j v1 v2 Hv1 Hv2.
    destruct (cells_getitem2_inv _ _ _ _ _ _ _ Hm1 Hv1) as (_ & _ & ->).
    destruct (cells_getitem2_inv _ _ _ _ _ _ _ Hm2 Hv2) as (_ & _ & ->).
    apply Hcell.
  - intros j v1 v2 Hv1 Hv2.
    destruct (np_sum_axis0_cells _ _ _ _ Hm1) as [Hlen1 Hsum1].
    destruct (np_sum_axis0_cells _ _ _ _ Hm2) as [_ Hsum2].
    assert (j < length lg)%nat as Hj.
    { rewrite <- Hlen1. by eapply lookup_lt_Some. }
    rewrite Hsum1 in Hv1 by done. rewrite Hsum2 in Hv2 by done.
    injection Hv1 as <-. injection Hv2 as <-.
    rewrite (cells_column_eq _ _ _ _ j Hm1), (cells_column_eq _ _ _ _ j Hm2)
      by done.
    apply zsum_fmap_le. intros i _. apply Hcell.
Qed.

Lemma assoc_wider_window_witness :
  assoc demo None (Some 2) = (fst (assoc demo None (Some 2)), ReturnNone) ∧
  assoc demo None (Some 5) = (fst (assoc demo None (Some 5)), ReturnNone) ∧
  merge_winhalf demo (Some 2) = Some 2 ∧
  merge_winhalf demo (Some 5) = Some 5 ∧ 2 ≤ 5 ∧
  ∃ m1 m2 t1 t2,
    n_assoc (fst (assoc demo None (Some 2))) = Some m1 ∧
    n_assoc (fst (assoc demo None (Some 5))) = Some m2 ∧
    assoc_total (fst (assoc demo None (Some 2))) = Some t1 ∧
    assoc_total (fst (assoc demo None (Some 5))) = Some t2 ∧
    (∀ i j v1 v2, getitem2 m1 i j = Some v1 → getitem2 m2 i j = Some v2 →
                  v1 ≤ v2) ∧
    (∀ j v1 v2, t1 !! j = Some v1 → t2 !! j = Some v2 → v1 ≤ v2).
Proof.
  split; [reflexivity|]. split; [reflexivity|]. split; [reflexivity|].
  split; [reflexivity|]. split; [lia|].
  apply (assoc_wider_window demo None (Some 2) (Some 5) 2 5);
    [reflexivity|reflexivity|reflexivity|reflexivity|lia].
Defined.

(** X7.  After a successful run no cell of the count matrix exceeds the
    number of points of series 2, and every entry of the association
    curve lies between 0 and the product of the two series lengths. *)
Theorem assoc_counts_bounded self u h self' :
  assoc self u h = (self', ReturnNone) →
  ∃ m tot,
    n_assoc self' = Some m ∧ assoc_total self' = Some tot ∧
    (∀ i j v, getitem2 m i j = Some v →
              v ≤ Z.of_nat (length (process2 self))) ∧
    (∀ j v, tot !! j = Some v →
            0 ≤ v ≤ Z.of_nat (length (process1 self))
                    * Z.of_nat (length (process2 self))).
Proof.
  intros Hrun.
  destruct (assoc_ReturnNone_inv _ _ _ _ Hrun)
    as (lg & w & Hlg & Hne & Hw & Hw0).
  destruct (assoc_run self u h lg w Hlg Hne Hw Hw0)
    as (s & m & Hs & _ & _ & _ & _ & _ & Hn & Hm & Ht & _).
  rewrite Hs in Hrun. injection Hrun as <-.
  assert (∀ i j, 0 ≤ window_count (process1 self) (process2 self) lg w i j
                 ≤ Z.of_nat (length (process2 self))) as Hcell.
  { intros i j. unfold window_count.
    pose proof (count_in_le_length (process2 self)
      (default 0 (process1 self !! i) + default 0 (lg !! j) - w)
      (default 0 (process1 self !! i) + default 0 (lg !! j) + w)).
    lia. }
  exists m, (np_sum_axis0 m). repeat (split; [done|]). split.
  - intros i j v Hv.
    destruct (cells_getitem2_inv _ _ _ _ _ _ _ Hm Hv) as (_ & _ & ->).
    apply Hcell.
  - intros j v Hv.
    destruct (np_sum_axis0_cells _ _ _ _ Hm) as [Hlen Hsum].
    assert (j < length lg)%nat as Hj.
    { rewrite <- Hlen. by eapply lookup_lt_Some. }
    rewrite Hsum in Hv by done. injection Hv as <-.
    rewrite (cells_column_eq _ _ _ _ j Hm) by done.
    set (R := length (process1 self)).
    set (f := λ i, window_count (process1 self) (process2 self) lg w i j).
    pose proof (zsum_fmap_le (λ _, 0) f (seq 0 R)) as Hlow.
    pose proof (zsum_fmap_le f
      (λ _, Z.of_nat (length (process2 self))) (seq 0 R)) as Hup.
    rewrite (zsum_fmap_const (λ _ : nat, 0) 0) in Hlow by done.
    rewrite (zsum_fmap_const (λ _ : nat, Z.of_nat (length (process2 self)))
               (Z.of_nat (length (process2 self)))) in Hup by done.
    rewrite length_seq in Hlow, Hup. split.
    + etrans; [|apply Hlow; intros i _; apply Hcell]. lia.
    + apply Hup. intros i _. apply Hcell.
Qed.

Lemma assoc_counts_bounded_witness :
  assoc demo None None = (demo_done, ReturnNone) ∧
  ∃ m tot,
    n_assoc demo_done = Some m ∧ assoc_total demo_done = Some tot ∧
    (∀ i j v, getitem2 m i j = Some v →
              v ≤ Z.of_nat (length (process2 demo))) ∧
    (∀ j v, tot !! j = Some v →
            0 ≤ v ≤ Z.of_nat (length (process1 demo))
                    * Z.of_nat (length (process2 demo))).
Proof.
  split; [reflexivity|].
  apply (assoc_counts_bounded demo None None demo_done). reflexivity.
Defined.

(** X8.  The analysis depends on the two series only through their
    relative position: moving both series by the same offset gives the
    same outcome, the same count matrix, the same association curve and
    the same asymptotic association number. *)
Theorem assoc_shift_invariant c self u h :
  snd (assoc (shift_series c self) u h) = snd (assoc self u h) ∧
  n_assoc (fst (assoc (shift_series c self) u h))
  = n_assoc (fst (assoc self u h)) ∧
  assoc_total (fst (assoc (shift_series c self) u h))
  = assoc_total (fst (assoc self u h)) ∧
  asympt_assoc (fst (assoc (shift_series c self) u h))
  = asympt_assoc (fst (assoc self u h)).
Proof.
  assert (merge_lags (shift_series c self) u = merge_lags self u) as Hml
    by done.
  assert (merge_winhalf (shift_series c self) h = merge_winhalf self h)
    as Hmw by done.
  destruct (truthy_lags (merge_lags self u)) eqn:Hl;
    [destruct (truthy_num (merge_winhalf self h)) eqn:Hw|].
  - apply truthy_lags_Some in Hl as (lg & Hlg & Hne).
    apply truthy_num_Some in Hw as (w & Hw & Hw0).
    destruct (assoc_run self u h lg w Hlg Hne Hw Hw0)
      as (s & m & -> & _ & _ & _ & _ & _ & Hn & Hm & Ht & Ha).
    destruct (assoc_run (shift_series c self) u h lg w)
      as (s' & m' & -> & _ & _ & _ & _ & _ & Hn' & Hm' & Ht' & Ha');
      [by rewrite Hml|done|by rewrite Hmw|done|].
    simpl in *. rewrite !length_fmap in Hm'.
    assert (m' = m) as ->.
    { eapply cells_unique; [exact Hm'|]. eapply cells_ext; [exact Hm|].
      intros i j Hi Hj. unfold window_count.
      rewrite list_lookup_fmap.
      destruct (lookup_lt_is_Some_2 (process1 self) i) as [p Hp]; [done|].
      rewrite Hp. simpl. f_equal.
      rewrite <- (count_in_shift c (process2 self)). f_equal; lia. }
    by rewrite Hn, Hn', Ht, Ht', Ha, Ha'.
  - destruct (check_attrs_fail self u h) as (s & Hchk & _ & Hsame);
      [by right|].
    destruct (check_attrs_fail (shift_series c self) u h)
      as (s' & Hchk' & _ & Hsame'); [right; by rewrite Hmw|].
    unfold assoc. rewrite Hchk, Hchk'. simpl.
    unfold same_but_lags in *. simpl in *.
    destruct Hsame as (_ & _ & _ & -> & -> & -> & _).
    destruct Hsame' as (_ & _ & _ & -> & -> & -> & _). done.
  - destruct (check_attrs_fail self u h) as (s & Hchk & _ & Hsame);
      [by left|].
    destruct (check_attrs_fail (shift_series c self) u h)
      as (s' & Hchk' & _ & Hsame'); [left; by rewrite Hml|].
    unfold assoc. rewrite Hchk, Hchk'. simpl.
    unfold same_but_lags in *. simpl in *.
    destruct Hsame as (_ & _ & _ & -> & -> & -> & _).
    destruct Hsame' as (_ & _ & _ & -> & -> & -> & _). done.
Qed.

(** ** Swapping the series *)

Lemma count_in_cons x l lo hi :
  Z.of_nat (count_in (x :: l) lo hi)
  = (if decide (lo ≤ x ≤ hi) then 1 else 0) + Z.of_nat (count_in l lo hi).
Proof.
  unfold count_in. rewrite filter_cons.
  destruct (decide (lo ≤ x ≤ hi)); simpl length; lia.
Qed.

Lemma zsum_fmap_add {A} (f g : A → Z) (l : list A) :
  zsum ((λ y, f y + g y) <$> l) = zsum (f <$> l) + zsum (g <$> l).
Proof.
  unfold zsum. induction l as [|y l IH]; [done|].
  rewrite !fmap_cons. simpl foldr. rewrite IH. lia.
Qed.

Lemma zsum_fmap_ext {A} (f g : A → Z) (l : list A) :
  (∀ y, f y = g y) → zsum (f <$> l) = zsum (g <$> l).
Proof.
  intros Hfg. unfold zsum. induction l as [|y l IH]; [done|].
  rewrite !fmap_cons. simpl foldr. by rewrite IH, Hfg.
Qed.

Lemma zsum_indicator x lag w l :
  zsum ((λ y, if decide (y + - lag - w ≤ x ≤ y + - lag + w) then 1 else 0)
          <$> l)
  = Z.of_nat (count_in l (x + lag - w) (x + lag + w)).
Proof.
  induction l as [|y l IH]; [done|].
  rewrite count_in_cons, <- IH, fmap_cons. unfold zsum. simpl foldr.
  f_equal.
  destruct (decide (y + - lag - w ≤ x ≤ y + - lag + w)),
           (decide (x + lag - w ≤ y ≤ x + lag + w)); lia.
Qed.

(** Counting the pairs within the window from either side. *)
Lemma double_count p1 p2 lag w :
  zsum ((λ x, Z.of_nat (count_in p2 (x + lag - w) (x + lag + w))) <$> p1)
  = zsum ((λ y, Z.of_nat (count_in p1 (y + - lag - w) (y + - lag + w)))
            <$> p2).
Proof.
  induction p1 as [|x p1 IH].
  - simpl. symmetry. rewrite (zsum_fmap_const _ 0); [lia|done].
  - rewrite fmap_cons. unfold zsum at 1. simpl foldr. fold (zsum
      ((λ x0, Z.of_nat (count_in p2 (x0 + lag - w) (x0 + lag + w)))
         <$> p1)).
    rewrite IH. rewrite <- (zsum_indicator x lag w p2).
    rewrite <- zsum_fmap_add. apply zsum_fmap_ext. intros y.
    by rewrite count_in_cons.
Qed.

Lemma column_sum_points p1 p2 lg w j lag :
  lg !! j = Some lag →
  zsum ((λ i, window_count p1 p2 lg w i j) <$> seq 0 (length p1))
  = zsum ((λ x, Z.of_nat (count_in p2 (x + lag - w) (x + lag + w)))
            <$> p1).
Proof.
  intros Hj. f_equal.
  apply (list_eq_same_length _ _ (length p1));
    [by rewrite length_fmap|by rewrite length_fmap, length_seq|].
  intros i a b Hi Ha Hb.
  rewrite list_lookup_fmap in Ha. rewrite list_lookup_fmap in Hb.
  rewrite lookup_seq_lt in Ha by done.
  destruct (lookup_lt_is_Some_2 p1 i) as [p Hp]; [done|].
  rewrite Hp in Hb. simpl in Ha, Hb. injection Ha as <-. injection Hb as <-.
  unfold window_count. by rewrite Hp, Hj.
Qed.

(** X9.  Swapping the series mirrors the association curve in the lag:
    the curve of the swapped object at the negated lags is the curve of
    the object at the lags. *)
Theorem assoc_swap_mirror self lg w :
  lg ≠ [] → w ≠ 0 →
  assoc_total (fst (assoc (swap self) (Some (Z.opp <$> lg)) (Some w)))
  = assoc_total (fst (assoc self (Some lg) (Some w))).
Proof.
  intros Hne Hw0.
  assert (Z.opp <$> lg ≠ []) as Hne' by (by destruct lg).
  destruct (assoc_run self (Some lg) (Some w) lg w)
    as (s & m & -> & _ & _ & _ & _ & _ & _ & Hm & Ht & _).
  { unfold merge_lags. by destruct lg. }
  { done. }
  { unfold merge_winhalf. simpl. by destruct (w =? 0) eqn:?; [lia|]. }
  { done. }
  destruct (assoc_run (swap self) (Some (Z.opp <$> lg)) (Some w)
              (Z.opp <$> lg) w)
    as (s' & m' & -> & _ & _ & _ & _ & _ & _ & Hm' & Ht' & _).
  { unfold merge_lags. by destruct lg. }
  { done. }
  { unfold merge_winhalf. simpl. by destruct (w =? 0) eqn:?; [lia|]. }
  { done. }
  simpl fst. rewrite Ht, Ht'. simpl in Hm'. rewrite length_fmap in Hm'.
  f_equal.
  destruct (np_sum_axis0_cells _ _ _ _ Hm) as [Hlen Hsum].
  destruct (np_sum_axis0_cells _ _ _ _ Hm') as [Hlen' Hsum'].
  apply (list_eq_same_length _ _ (length lg)); [done..|].
  intros j a b Hj Ha Hb.
  rewrite Hsum' in Ha by done. rewrite Hsum in Hb by done.
  injection Ha as <-. injection Hb as <-.
  rewrite (cells_column_eq _ _ _ _ j Hm), (cells_column_eq _ _ _ _ j Hm')
    by done.
  destruct (lookup_lt_is_Some_2 lg j) as [lag Hlag]; [done|].
  rewrite (column_sum_points _ _ lg w j lag) by done.
  rewrite (column_sum_points _ _ (Z.opp <$> lg) w j (- lag))
    by (by rewrite list_lookup_fmap, Hlag).
  symmetry. apply double_count.
Qed.

Lemma assoc_swap_mirror_witness :
  [-2; 0; 2] ≠ [] ∧ 2 ≠ 0 ∧
  assoc_total
    (fst (assoc (swap demo) (Some (Z.opp <$> [-2; 0; 2])) (Some 2)))
  = assoc_total (fst (assoc demo (Some [-2; 0; 2]) (Some 2))).
Proof.
  split; [discriminate|]. split; [lia|].
  apply (assoc_swap_mirror demo [-2; 0; 2] 2); [discriminate|lia].
Defined.

(** ** [__str__] *)

(** The formatting operator does fill a template that is given a value
    for each conversion, and rejects one that is given too many. *)
Lemma format_examples :
  format "n=%d %s%%" [PInt 3; PStr "x"] = inr "n=3 x%" ∧
  format "n=%d" [PInt 3; PStr "x"] = inl NotAllConverted ∧
  format "n=%d" [PStr "x"] = inl NumberRequired.
Proof. repeat split; reflexivity. Qed.

(** X10.  [str(obj)] (and [repr(obj)]) fails on every object: the
    template has four conversions and is given two values, so the
    formatting raises "not enough arguments for format string". *)
Theorem str_always_raises self : str self = inl NotEnoughArguments.
Proof. unfold str. vm_compute. reflexivity. Qed.

(** ** Further properties of [boots_ci] *)

Lemma boots_ci_eq data n inter func ran_el :
  (2 < length data)%nat → randint_table (length data) n ran_el →
  boots_ci data n inter func ran_el
  = let! lo := prctile (surrogates data n func ran_el)
                 (lowPercentile inter) in
    let! hi := prctile (surrogates data n func ran_el)
                 (highPercentile inter) in
    ok (lo, hi).
Proof.
  intros Hlen Htab. unfold boots_ci. rewrite decide_True by done.
  destruct (surrogate_loop data n func ran_el Htab) as (ss & ->).
  reflexivity.
Qed.

Lemma insert_sorted_elem a x l :
  a ∈ insert_sorted x l → a = x ∨ a ∈ l.
Proof.
  induction l as [|y l IH]; simpl.
  - intros ?%list_elem_of_singleton. by left.
  - destruct (Qle_bool x y).
    + rewrite elem_of_cons. tauto.
    + rewrite !elem_of_cons. intros [->|Hin]; [tauto|].
      destruct (IH Hin); tauto.
Qed.

Lemma sort_values_elem a l : a ∈ sort_values l → a ∈ l.
Proof.
  induction l as [|x l IH]; simpl; [done|].
  intros [->|Hin]%insert_sorted_elem; [by left|]. right. by apply IH.
Qed.

(** An interpolated percentile lies between two values of the sample. *)
Lemma prctile_between x p v :
  x ≠ [] → (0 <= p)%Q → (p <= 100)%Q → prctile x p = ok v →
  ∃ a b, a ∈ x ∧ b ∈ x ∧ (a <= v)%Q ∧ (v <= b)%Q.
Proof.
  intros Hx H0 H100. rewrite prctile_unfold.
  assert (1 ≤ length x)%nat as Hn by (destruct x; [done|simpl; lia]).
  destruct (rank_bounds (length x) p Hn H0 H100) as (Hf & Hfc & Hc).
  destruct (value_at _ (Qfloor _)) as [|a] eqn:Ha; [done|].
  destruct (value_at _ (Qceiling _)) as [|b] eqn:Hb; [done|].
  intros Hv.
  assert (v = (a + (b - a) * (pct_rank (length x) p
                 - inject_Z (Qfloor (pct_rank (length x) p))))%Q) as ->
    by (unfold rbind, ok in Hv; congruence).
  apply value_at_inv in Ha, Hb.
  exists a, b.
  split; [by eapply sort_values_elem, list_elem_of_lookup_2|].
  split; [by eapply sort_values_elem, list_elem_of_lookup_2|].
  apply interp_bounds.
  - eapply (sort_values_ascending x _ _ a b); [|done..]. lia.
  - pose proof (Qfloor_le (pct_rank (length x) p)). lra.
  - pose proof (Qlt_floor (pct_rank (length x) p)) as Hlt.
    rewrite inject_Z_plus in Hlt. change (inject_Z 1) with 1%Q in Hlt. lra.
Qed.

Lemma percentiles_ordered inter :
  (0 < inter)%Q → (lowPercentile inter <= highPercentile inter)%Q.
Proof.
  intros H0. unfold highPercentile.
  generalize (lowPercentile inter). intros x. lra.
Qed.

Lemma surrogates_nonempty data n func ran_el :
  (1 ≤ n)%nat → surrogates data n func ran_el ≠ [].
Proof.
  intros Hn Hnil. pose proof (surrogates_length data n func ran_el) as Hlen.
  rewrite Hnil in Hlen. simpl in Hlen. lia.
Qed.

(** A successful call, split into its two percentiles. *)
Lemma boots_ci_ok_inv data n inter func ran_el lower upper :
  (2 < length data)%nat → randint_table (length data) n ran_el →
  boots_ci data n inter func ran_el = ok (lower, upper) →
  prctile (surrogates data n func ran_el) (lowPercentile inter) = ok lower ∧
  prctile (surrogates data n func ran_el) (highPercentile inter) = ok upper.
Proof.
  intros Hlen Htab. rewrite boots_ci_eq by done.
  destruct (prctile _ (lowPercentile inter)) as [|lo]; [done|].
  destruct (prctile _ (highPercentile inter)) as [|hi]; [done|].
  simpl. by intros [= -> ->].
Qed.

Lemma boots_ci_succeeds data n inter func ran_el :
  (0 < inter)%Q → (inter < 100)%Q → (1 ≤ n)%nat → (2 < length data)%nat →
  randint_table (length data) n ran_el →
  ∃ lower upper, boots_ci data n inter func ran_el = ok (lower, upper).
Proof.
  intros H0 H100 Hn Hlen Htab.
  destruct (percentile_range inter H0 H100) as (Hl0 & Hl100 & Hh0 & Hh100).
  pose proof (surrogates_nonempty data n func ran_el Hn) as Hne.
  destruct (prctile_ok _ (lowPercentile inter) Hne Hl0 Hl100)
    as (lower & Hlow & _).
  destruct (prctile_ok _ (highPercentile inter) Hne Hh0 Hh100)
    as (upper & Hhigh & _).
  exists lower, upper. rewrite boots_ci_eq by done.
  rewrite Hlow. simpl. by rewrite Hhigh.
Qed.

Lemma boots_ci_limits_ordered data n inter func ran_el lower upper :
  (0 < inter)%Q → (inter < 100)%Q → (1 ≤ n)%nat → (2 < length data)%nat →
  randint_table (length data) n ran_el →
  boots_ci data n inter func ran_el = ok (lower, upper) →
  (lower <= upper)%Q.
Proof.
  intros H0 H100 Hn Hlen Htab Hrun.
  destruct (boots_ci_ok_inv _ _ _ _ _ _ _ Hlen Htab Hrun) as [Hlow Hhigh].
  destruct (percentile_range inter H0 H100) as (Hl0 & _).
  eapply (prctile_mono (surrogates data n func ran_el)); [|done| |done..].
  - by apply surrogates_nonempty.
  - by apply percentiles_ordered.
Qed.

(** X11.  The interval [boots_ci] returns is ordered: the lower limit is
    at most the upper limit. *)
Theorem boots_ci_ordered data n inter func ran_el lower upper :
  (0 < inter)%Q → (inter < 100)%Q → (1 ≤ n)%nat → (2 < length data)%nat →
  randint_table (length data) n ran_el →
  boots_ci data n inter func ran_el = ok (lower, upper) →
  (lower <= upper)%Q.
Proof. apply boots_ci_limits_ordered. Qed.

Lemma boots_ci_ordered_witness :
  (0 < 95)%Q ∧ (95 < 100)%Q ∧ (1 ≤ 4)%nat ∧
  (2 < length [1; 2; 3]%Q)%nat ∧
  randint_table (length [1; 2; 3]%Q) 4 demo_table ∧
  boots_ci [1; 2; 3]%Q 4 95 qsum demo_table
  = ok (645 # 200, 1385 # 200)%Q ∧
  (645 # 200 <= 1385 # 200)%Q.
Proof.
  assert (randint_table (length [1; 2; 3]%Q) 4 demo_table) as Htab.
  { split; [reflexivity|].
    repeat (constructor; [split; [reflexivity|]; repeat constructor|]).
    constructor. }
  split; [reflexivity|]. split; [reflexivity|]. split; [lia|].
  split; [simpl; lia|]. split; [exact Htab|]. split; [reflexivity|].
  apply (boots_ci_ordered [1; 2; 3]%Q 4 95 qsum demo_table);
    [reflexivity|reflexivity|lia|simpl; lia|exact Htab|reflexivity].
Defined.

Lemma resample_length data idxs :
  length (resample data idxs) = length idxs.
Proof. unfold resample. by rewrite length_fmap. Qed.

Lemma resample_elem data idxs x :
  Forall (λ k, k < length data)%nat idxs →
  x ∈ resample data idxs → x ∈ data.
Proof.
  intros Hrange. unfold resample.
  intros (k & -> & Hk)%list_elem_of_fmap.
  rewrite Forall_forall in Hrange. specialize (Hrange k Hk).
  destruct (lookup_lt_is_Some_2 data k) as [v Hv]; [done|].
  rewrite Hv. simpl. by eapply list_elem_of_lookup_2.
Qed.

Lemma surrogates_elem data n func ran_el a :
  a ∈ surrogates data n func ran_el →
  ∃ i, (i < n)%nat ∧ a = func (resample data (draws ran_el i)).
Proof.
  unfold surrogates. intros (i & -> & Hi)%list_elem_of_fmap.
  apply elem_of_seq in Hi. exists i. split; [lia|done].
Qed.

(** The two limits lie between two surrogate values. *)
Lemma boots_ci_between data n inter func ran_el lower upper :
  (0 < inter)%Q → (inter < 100)%Q → (1 ≤ n)%nat → (2 < length data)%nat →
  randint_table (length data) n ran_el →
  boots_ci data n inter func ran_el = ok (lower, upper) →
  ∃ i j, (i < n)%nat ∧ (j < n)%nat ∧
    (func (resample data (draws ran_el i)) <= lower)%Q ∧
    (upper <= func (resample data (draws ran_el j)))%Q.
Proof.
  intros H0 H100 Hn Hlen Htab Hrun.
  destruct (boots_ci_ok_inv _ _ _ _ _ _ _ Hlen Htab Hrun) as [Hlow Hhigh].
  destruct (percentile_range inter H0 H100) as (Hl0 & Hl100 & Hh0 & Hh100).
  pose proof (surrogates_nonempty data n func ran_el Hn) as Hne.
  destruct (prctile_between _ _ _ Hne Hl0 Hl100 Hlow)
    as (a & _ & Ha & _ & Hal & _).
  destruct (prctile_between _ _ _ Hne Hh0 Hh100 Hhigh)
    as (_ & b & _ & Hb & _ & Hbu).
  apply surrogates_elem in Ha as (i & Hi & ->).
  apply surrogates_elem in Hb as (j & Hj & ->).
  by exists i, j.
Qed.

(** X12.  The interval stays within the range of the statistic: when the
    statistic maps every vector of as many values as the counts, all
    taken from the counts, into [[L, U]], both limits lie in [[L, U]]. *)
Theorem boots_ci_within_range data n inter func ran_el lower upper L U :
  (0 < inter)%Q → (inter < 100)%Q → (1 ≤ n)%nat → (2 < length data)%nat →
  randint_table (length data) n ran_el →
  boots_ci data n inter func ran_el = ok (lower, upper) →
  (∀ v, length v = length data → (∀ x, x ∈ v → x ∈ data) →
        (L <= func v)%Q ∧ (func v <= U)%Q) →
  (L <= lower)%Q ∧ (upper <= U)%Q.
Proof.
  intros H0 H100 Hn Hlen Htab Hrun Hfunc.
  destruct (boots_ci_between _ _ _ _ _ _ _ H0 H100 Hn Hlen Htab Hrun)
    as (i & j & Hi & Hj & Hlo & Hup).
  assert (∀ k, (k < n)%nat →
            (L <= func (resample data (draws ran_el k)))%Q ∧
            (func (resample data (draws ran_el k)) <= U)%Q) as Hk.
  { intros k Hkn. apply Hfunc.
    - rewrite resample_length. by apply (draws_length _ n).
    - intros x. apply resample_elem. by apply (draws_in_range _ n). }
  destruct (Hk i Hi) as [HL _]. destruct (Hk j Hj) as [_ HU].
  split; eapply Qle_trans; eauto.
Qed.

Lemma boots_ci_within_range_witness :
  (0 < 95)%Q ∧ (95 < 100)%Q ∧ (1 ≤ 4)%nat ∧
  (2 < length [1; 2; 3]%Q)%nat ∧
  randint_table (length [1; 2; 3]%Q) 4 demo_table ∧
  boots_ci [1; 2; 3]%Q 4 95 (λ v, hd 0%Q v) demo_table
  = ok (200 # 200, 585 # 200)%Q ∧
  (∀ v, length v = length [1; 2; 3]%Q →
        (∀ x, x ∈ v → x ∈ [1; 2; 3]%Q) →
        (1 <= hd 0%Q v)%Q ∧ (hd 0%Q v <= 3)%Q) ∧
  (1 <= 200 # 200)%Q ∧ (585 # 200 <= 3)%Q.
Proof.
  assert (randint_table (length [1; 2; 3]%Q) 4 demo_table) as Htab.
  { split; [reflexivity|].
    repeat (constructor; [split; [reflexivity|]; repeat constructor|]).
    constructor. }
  assert (∀ v, length v = length [1; 2; 3]%Q →
            (∀ x, x ∈ v → x ∈ [1; 2; 3]%Q) →
            (1 <= hd 0%Q v)%Q ∧ (hd 0%Q v <= 3)%Q) as Hfunc.
  { intros v Hlen Hin. destruct v as [|a v]; [discriminate|].
    pose proof (Hin a (list_elem_of_here _ _)) as Ha. simpl.
    rewrite !elem_of_cons in Ha.
    destruct Ha as [->|[->|[->|Ha]]]; [by split..|].
    by apply elem_of_nil in Ha. }
  split; [reflexivity|]. split; [reflexivity|]. split; [lia|].
  split; [simpl; lia|]. split; [exact Htab|]. split; [reflexivity|].
  split; [exact Hfunc|].
  apply (boots_ci_within_range [1; 2; 3]%Q 4 95 (λ v, hd 0%Q v) demo_table
           (200 # 200) (585 # 200) 1 3);
    [reflexivity|reflexivity|lia|simpl; lia|exact Htab|reflexivity
    |exact Hfunc].
Defined.

Lemma resample_replicate c m idxs :
  length idxs = m → Forall (λ k, k < m)%nat idxs →
  resample (replicate m c) idxs = replicate m c.
Proof.
  intros Hlen Hrange.
  apply (list_eq_same_length _ _ m);
    [by rewrite length_replicate|by rewrite resample_length|].
  intros i x y Hi Hx Hy. apply lookup_replicate in Hy as [-> _].
  unfold resample in Hx. rewrite list_lookup_fmap in Hx.
  destruct (idxs !! i) as [k|] eqn:Hk; [|done]. simpl in Hx.
  rewrite Forall_lookup in Hrange. specialize (Hrange i k Hk).
  rewrite lookup_replicate_2 in Hx by done. simpl in Hx. congruence.
Qed.

(** X13.  When all counts are equal, resampling cannot vary them: the
    interval collapses to the statistic of the counts themselves. *)
Theorem boots_ci_constant_counts c m n inter func ran_el :
  (0 < inter)%Q → (inter < 100)%Q → (1 ≤ n)%nat → (2 < m)%nat →
  randint_table m n ran_el →
  ∃ lower upper,
    boots_ci (replicate m c) n inter func ran_el = ok (lower, upper) ∧
    (lower == func (replicate m c))%Q ∧
    (upper == func (replicate m c))%Q.
Proof.
  intros H0 H100 Hn Hm Htab.
  assert (length (replicate m c) = m) as Hlen by apply length_replicate.
  destruct (boots_ci_succeeds (replicate m c) n inter func ran_el)
    as (lower & upper & Hrun); [done..|lia|by rewrite Hlen|].
  exists lower, upper. split; [done|].
  assert (∀ k, (k < n)%nat →
            resample (replicate m c) (draws ran_el k) = replicate m c)
    as Hres.
  { intros k Hk. apply resample_replicate.
    - by apply (draws_length _ n).
    - by apply (draws_in_range _ n). }
  destruct (boots_ci_between (replicate m c) n inter func ran_el lower upper)
    as (i & j & Hi & Hj & Hlo & Hup); [done..|lia|by rewrite Hlen|done|].
  rewrite Hres in Hlo, Hup by done.
  assert (lower <= upper)%Q as Hord.
  { apply (boots_ci_limits_ordered (replicate m c) n inter func ran_el);
      [done..|lia|by rewrite Hlen|done]. }
  split; apply Qle_antisym; lra.
Qed.

Lemma boots_ci_constant_counts_witness :
  (0 < 95)%Q ∧ (95 < 100)%Q ∧ (1 ≤ 4)%nat ∧ (2 < 3)%nat ∧
  randint_table 3 4 demo_table ∧
  ∃ lower upper,
    boots_ci (replicate 3 (7 # 1)) 4 95 qsum demo_table
    = ok (lower, upper) ∧
    (lower == qsum (replicate 3 (7 # 1)))%Q ∧
    (upper == qsum (replicate 3 (7 # 1)))%Q.
Proof.
  assert (randint_table 3 4 demo_table) as Htab.
  { split; [reflexivity|].
    repeat (constructor; [split; [reflexivity|]; repeat constructor|]).
    constructor. }
  split; [reflexivity|]. split; [reflexivity|]. split; [lia|].
  split; [lia|]. split; [exact Htab|].
  apply (boots_ci_constant_counts (7 # 1) 3 4 95 qsum demo_table);
    [reflexivity|reflexivity|lia|lia|exact Htab].
Defined.

(** X14.  The resampling loop through the dict writes every cell of the
    reused array [surr_ser]: whatever the array held before (the previous
    resample, or the unspecified contents of [np.empty]), after the loop
    it is the data read at the drawn indices, and no exception occurs. *)
Theorem resample_overwrites_all data col surr0 surr0' :
  length col = length data →
  Forall (λ k, k < length data)%nat col →
  length surr0 = length data → length surr0' = length data →
  for_enum 0 col (resample_step (build_data_copy data)) surr0
  = (resample data col, ok tt) ∧
  for_enum 0 col (resample_step (build_data_copy data)) surr0'
  = for_enum 0 col (resample_step (build_data_copy data)) surr0.
Proof.
  intros Hcol Hrange H0 H0'.
  rewrite (resample_loop data col surr0) by done.
  by rewrite (resample_loop data col surr0') by done.
Qed.

Lemma resample_overwrites_all_witness :
  length [2; 0; 2]%nat = length [1; 2; 3]%Q ∧
  Forall (λ k, k < length [1; 2; 3]%Q)%nat [2; 0; 2]%nat ∧
  length [9; 9; 9]%Q = length [1; 2; 3]%Q ∧
  length [0; 0; 0]%Q = length [1; 2; 3]%Q ∧
  for_enum 0 [2; 0; 2]%nat (resample_step (build_data_copy [1; 2; 3]%Q))
    [9; 9; 9]%Q
  = (resample [1; 2; 3]%Q [2; 0; 2]%nat, ok tt) ∧
  for_enum 0 [2; 0; 2]%nat (resample_step (build_data_copy [1; 2; 3]%Q))
    [0; 0; 0]%Q
  = for_enum 0 [2; 0; 2]%nat (resample_step (build_data_copy [1; 2; 3]%Q))
      [9; 9; 9]%Q.
Proof.
  assert (Forall (λ k, k < length [1; 2; 3]%Q)%nat [2; 0; 2]%nat) as Hr.
  { repeat constructor. }
  split; [reflexivity|]. split; [exact Hr|]. split; [reflexivity|].
  split; [reflexivity|].
  apply (resample_overwrites_all [1; 2; 3]%Q [2; 0; 2]%nat
           [9; 9; 9]%Q [0; 0; 0]%Q);
    [reflexivity|exact Hr|reflexivity|reflexivity].
Defined.

(** X15.  The dict built by the first loop of [boots_ci] is the data
    keyed by position: looking up position [el] gives [data[el]], and no
    key beyond the data is present. *)
Theorem data_copy_is_data data : build_data_copy data = map_seq 0 data.
Proof.
  apply map_eq. intros k.
  by rewrite build_data_copy_lookup, lookup_map_seq_0.
Qed.

(** ** [aa_ci] *)

Lemma for_each_inv {A St E : Type} (body : A → St → St * (E + unit))
    (I : nat → St → Prop) (l : list A) : ∀ k s,
  I k s →
  (∀ n x s0, l !! n = Some x → I (k + n)%nat s0 →
     ∃ s1, body x s0 = (s1, inr tt) ∧ I (S (k + n)) s1) →
  ∃ s', for_each l body s = (s', inr tt) ∧ I (k + length l)%nat s'.
Proof.
  induction l as [|x l IH]; intros k s Hk Hstep; simpl.
  - exists s. by rewrite Nat.add_0_r.
  - destruct (Hstep 0%nat x s) as (s1 & Hb & H1);
      [done|by rewrite Nat.add_0_r|].
    rewrite Nat.add_0_r in H1. rewrite Hb.
    destruct (IH (S k) s1 H1) as (s' & Hs' & HI).
    { intros n y s0 Hy HI0.
      replace (S k + n)%nat with (k + S n)%nat in * by lia.
      by apply Hstep. }
    exists s'. split; [done|].
    by replace (k + S (length l))%nat with (S k + length l)%nat by lia.
Qed.

Lemma getcol_cells m R C f j :
  cells m R C f → (j < C)%nat → getcol m j = ok (column m j).
Proof.
  intros (Hs & Hl & Hc) Hj. unfold getcol, column. rewrite Hs. simpl.
  rewrite decide_True by done.
  assert (Forall (λ row : list Z, j < length row)%nat (rows m)) as Hrows.
  { apply Forall_lookup. intros i row Hrow.
    destruct (Hc i row Hrow) as [-> _]. done. }
  assert (mapM (λ row : list Z, row !! j) (rows m)
          = Some ((λ row : list Z, default 0 (row !! j)) <$> rows m))
    as ->; [|done].
  clear Hs Hl Hc.
  induction Hrows as [|row rs Hlen _ IH]; [done|].
  destruct (lookup_lt_is_Some_2 row j) as [v Hv]; [done|].
  simpl. rewrite Hv. simpl. by rewrite IH.
Qed.

Lemma inject_Z_succ n :
  (inject_Z (Z.of_nat (S n)) == inject_Z (Z.of_nat n) + 1)%Q.
Proof. rewrite Nat2Z.inj_succ. unfold Z.succ. by rewrite inject_Z_plus. Qed.

Lemma foldl_Qplus_bounds (lo hi : Q) (v : list Q) : ∀ acc,
  (∀ x, x ∈ v → (lo <= x)%Q ∧ (x <= hi)%Q) →
  (acc + inject_Z (Z.of_nat (length v)) * lo <= foldl Qplus acc v)%Q ∧
  (foldl Qplus acc v <= acc + inject_Z (Z.of_nat (length v)) * hi)%Q.
Proof.
  induction v as [|x v IH]; intros acc Hv.
  - change (foldl Qplus acc []) with acc.
    change (inject_Z (Z.of_nat (length (@nil Q)))) with 0%Q. split; lra.
  - assert (∀ y, y ∈ v → (lo <= y)%Q ∧ (y <= hi)%Q) as Hv'.
    { intros y Hy. apply Hv. by apply list_elem_of_further. }
    destruct (Hv x (list_elem_of_here _ _)) as [Hlo Hhi].
    destruct (IH (acc + x)%Q Hv') as [IHlo IHhi].
    change (foldl Qplus acc (x :: v)) with (foldl Qplus (acc + x)%Q v).
    change (length (x :: v)) with (S (length v)).
    rewrite inject_Z_succ.
    set (k := inject_Z (Z.of_nat (length v))) in *.
    clearbody k. split; lra.
Qed.

Lemma np_add_reduce_bounds (hi : Q) (v : list Q) :
  (∀ x, x ∈ v → (0 <= x)%Q ∧ (x <= hi)%Q) →
  (0 <= np_add_reduce v)%Q ∧
  (np_add_reduce v <= inject_Z (Z.of_nat (length v)) * hi)%Q.
Proof.
  intros Hv. unfold np_add_reduce.
  destruct (foldl_Qplus_bounds 0 hi v 0 Hv) as [Hlo Hhi]. split; lra.
Qed.

Lemma column_entry_bounds p1 p2 lg w m j x :
  cells m (length p1) (length lg) (window_count p1 p2 lg w) →
  (j < length lg)%nat → x ∈ inject_Z <$> column m j →
  (0 <= x)%Q ∧ (x <= inject_Z (Z.of_nat (length p2)))%Q.
Proof.
  intros Hm Hj. rewrite (cells_column_eq _ _ _ _ j Hm) by done.
  intros (z & -> & Hz)%list_elem_of_fmap.
  apply list_elem_of_fmap in Hz as (i & -> & _).
  unfold window_count.
  pose proof (count_in_le_length p2
    (default 0 (p1 !! i) + default 0 (lg !! j) - w)
    (default 0 (p1 !! i) + default 0 (lg !! j) + w)) as Hle.
  split.
  - change 0%Q with (inject_Z 0). rewrite <- Zle_Qle. lia.
  - rewrite <- Zle_Qle. lia.
Qed.

(** X16.  After a successful [assoc] on a series 1 of more than two
    points, [aa_ci] with a level strictly between 0 and 100 and at least
    one resample succeeds and changes only the attribute [ci]: it stores
    one lower and one upper limit per lag, those that [boots_ci] returns
    for that lag's column of the count matrix with the sum as statistic.
    Each pair is ordered and lies between 0 and the product of the two
    series lengths. *)
Theorem aa_ci_after_assoc self u h self' inter n_boots tables :
  assoc self u h = (self', ReturnNone) →
  (2 < length (process1 self))%nat →
  (0 < inter)%Q → (inter < 100)%Q → (1 ≤ n_boots)%nat →
  (∀ j, randint_table (length (process1 self)) n_boots (tables j)) →
  ∃ lg m lows highs,
    lags self' = Some lg ∧ n_assoc self' = Some m ∧
    aa_ci self' inter n_boots tables
    = (set_ci self' (Fin <$> lows, Fin <$> highs), inr tt) ∧
    length lows = length lg ∧ length highs = length lg ∧
    ∀ j, (j < length lg)%nat →
      ∃ lo hi,
        lows !! j = Some lo ∧ highs !! j = Some hi ∧
        boots_ci (inject_Z <$> column m j) n_boots inter np_add_reduce
          (tables j) = ok (lo, hi) ∧
        (0 <= lo)%Q ∧ (lo <= hi)%Q ∧
        (hi <= inject_Z (Z.of_nat (length (process1 self)))
               * inject_Z (Z.of_nat (length (process2 self))))%Q.
Proof.
  intros Hrun HR H0 H100 Hn Htab.
  destruct (assoc_ReturnNone_inv _ _ _ _ Hrun)
    as (lg & w & Hlg & Hne & Hw & Hw0).
  destruct (assoc_run self u h lg w Hlg Hne Hw Hw0)
    as (s & m & Hs & _ & _ & Hl & _ & _ & Hna & Hm & _).
  rewrite Hs in Hrun. injection Hrun as <-.
  set (R := length (process1 self)) in *.
  set (C := length lg) in *.
  assert (∀ j, length (inject_Z <$> column m j) = R) as Hcol.
  { intros j. rewrite length_fmap. by eapply cells_column_length. }
  destruct (for_each_inv (E := pyexn)
    (aa_ci_step s inter n_boots tables)
    (λ j st, length (fst st) = C ∧ length (snd st) = C ∧
       ∀ k, (k < j)%nat → ∃ lo hi,
         fst st !! k = Some lo ∧ snd st !! k = Some hi ∧
         boots_ci (inject_Z <$> column m k) n_boots inter np_add_reduce
           (tables k) = ok (lo, hi))
    (seq 0 C) 0%nat (np_zeros1 C, np_zeros1 C))
    as ([cl ch] & Hloop & Hcl & Hch & Hval).
  - unfold np_zeros1. simpl. rewrite length_replicate.
    repeat split. intros k Hk. lia.
  - intros n x [cl0 ch0] Hx (Hcl0 & Hch0 & Hval0). simpl in *.
    apply lookup_seq in Hx as [-> Hlt]. simpl.
    unfold aa_ci_step. rewrite Hna.
    rewrite (getcol_cells _ _ _ _ n Hm) by done.
    destruct (boots_ci_succeeds (inject_Z <$> column m n) n_boots inter
                np_add_reduce (tables n)) as (lo & hi & Hb);
      [done..|by rewrite Hcol|by rewrite Hcol|].
    unfold ok at 1. cbv beta iota. rewrite Hb.
    unfold ok at 1. cbv beta iota. cbn [fst snd].
    rewrite (setitem1_ok n lo cl0) by lia. unfold ok at 1. cbv beta iota.
    rewrite (setitem1_ok n hi ch0) by lia. unfold ok at 1. cbv beta iota.
    eexists. split; [done|]. cbn [fst snd].
    split; [by rewrite length_insert|]. split; [by rewrite length_insert|].
    intros k Hk. destruct (decide (k = n)) as [->|Hnek].
    + exists lo, hi. rewrite !list_lookup_insert_eq by lia. done.
    + rewrite !list_lookup_insert_ne by done. apply Hval0. lia.
  - simpl in *. rewrite length_seq in Hval.
    exists lg, m, cl, ch. split; [done|]. split; [done|].
    split; [unfold aa_ci; rewrite Hl; cbv zeta; fold C; by rewrite Hloop|].
    split; [done|]. split; [done|].
    intros j Hj. destruct (Hval j Hj) as (lo & hi & Hlo & Hhi & Hb).
    exists lo, hi. repeat (split; [done|]).
    destruct (boots_ci_between _ _ _ _ _ _ _ H0 H100 Hn
                ltac:(by rewrite Hcol) ltac:(by rewrite Hcol) Hb)
      as (i1 & i2 & Hi1 & Hi2 & Hlow & Hup).
    assert (∀ k, (k < n_boots)%nat →
      (0 <= np_add_reduce
              (resample (inject_Z <$> column m j) (draws (tables j) k)))%Q ∧
      (np_add_reduce
         (resample (inject_Z <$> column m j) (draws (tables j) k))
       <= inject_Z (Z.of_nat R)
          * inject_Z (Z.of_nat (length (process2 self))))%Q) as Hstat.
    { intros k Hk.
      pose proof (np_add_reduce_bounds
        (inject_Z (Z.of_nat (length (process2 self))))
        (resample (inject_Z <$> column m j) (draws (tables j) k))) as Hbd.
      rewrite resample_length, (draws_length R n_boots) in Hbd by done.
      apply Hbd. intros x Hx.
      apply (column_entry_bounds (process1 self) (process2 self) lg w m j);
        [done..|].
      eapply resample_elem; [|exact Hx].
      rewrite Hcol. by apply (draws_in_range _ n_boots). }
    destruct (Hstat i1 Hi1) as [Hz _]. destruct (Hstat i2 Hi2) as [_ Hu].
    split; [lra|]. split; [|lra].
    apply (boots_ci_limits_ordered (inject_Z <$> column m j) n_boots inter
             np_add_reduce (tables j)); [done..|by rewrite Hcol
             |by rewrite Hcol|done].
Qed.

Lemma aa_ci_after_assoc_witness :
  assoc demo None None = (demo_done, ReturnNone) ∧
  (2 < length (process1 demo))%nat ∧
  (0 < 95)%Q ∧ (95 < 100)%Q ∧ (1 ≤ 4)%nat ∧
  (∀ j : nat, randint_table (length (process1 demo)) 4 demo_table) ∧
  ∃ lg m lows highs,
    lags demo_done = Some lg ∧ n_assoc demo_done = Some m ∧
    aa_ci demo_done 95 4 (λ _, demo_table)
    = (set_ci demo_done (Fin <$> lows, Fin <$> highs), inr tt) ∧
    length lows = length lg ∧ length highs = length lg ∧
    ∀ j, (j < length lg)%nat →
      ∃ lo hi,
        lows !! j = Some lo ∧ highs !! j = Some hi ∧
        boots_ci (inject_Z <$> column m j) 4 95 np_add_reduce demo_table
        = ok (lo, hi) ∧
        (0 <= lo)%Q ∧ (lo <= hi)%Q ∧
        (hi <= inject_Z (Z.of_nat (length (process1 demo)))
               * inject_Z (Z.of_nat (length (process2 demo))))%Q.
Proof.
  assert (randint_table (length (process1 demo)) 4 demo_table) as Htab.
  { split; [reflexivity|].
    repeat (constructor; [split; [reflexivity|]; repeat constructor|]).
    constructor. }
  split; [reflexivity|]. split; [simpl; lia|]. split; [reflexivity|].
  split; [reflexivity|]. split; [lia|]. split; [intros _; exact Htab|].
  apply (aa_ci_after_assoc demo None None demo_done 95 4 (λ _, demo_table));
    [reflexivity|simpl; lia|reflexivity|reflexivity|lia
    |intros _; exact Htab].
Defined.

(** X17.  After a successful [assoc] on a series 1 of at most two
    points, [aa_ci] raises [TypeError] (from [boots_ci], at the first lag)
    and leaves the object as it is: no confidence interval is stored. *)
Theorem aa_ci_short_series self u h self' inter n_boots tables :
  assoc self u h = (self', ReturnNone) →
  (length (process1 self) ≤ 2)%nat →
  aa_ci self' inter n_boots tables = (self', inl (Builtin TypeError)).
Proof.
  intros Hrun HR.
  destruct (assoc_ReturnNone_inv _ _ _ _ Hrun)
    as (lg & w & Hlg & Hne & Hw & Hw0).
  destruct (assoc_run self u h lg w Hlg Hne Hw Hw0)
    as (s & m & Hs & _ & _ & Hl & _ & _ & Hna & Hm & _).
  rewrite Hs in Hrun. injection Hrun as <-.
  assert (0 < length lg)%nat as Hpos by (destruct lg; [done|simpl; lia]).
  assert (boots_ci (inject_Z <$> column m 0) n_boots inter np_add_reduce
            (tables 0%nat) = raise TypeError) as Hb.
  { unfold boots_ci. rewrite decide_False; [done|].
    rewrite length_fmap, (cells_column_length _ _ _ _ 0 Hm). lia. }
  unfold aa_ci. rewrite Hl. cbv zeta.
  destruct (length lg) as [|k] eqn:Hk; [lia|].
  change (seq 0 (S k)) with (0%nat :: seq 1 k). cbn [for_each].
  unfold aa_ci_step at 1. rewrite Hna.
  rewrite (getcol_cells _ _ _ _ 0 Hm) by lia.
  unfold ok at 1. cbv beta iota. rewrite Hb. reflexivity.
Qed.

Lemma aa_ci_short_series_witness :
  assoc pair_obj None None = (pair_done, ReturnNone) ∧
  (length (process1 pair_obj) ≤ 2)%nat ∧
  aa_ci pair_done 95 4 (λ _, demo_table)
  = (pair_done, inl (Builtin TypeError)).
Proof.
  split; [reflexivity|]. split; [simpl; lia|].
  apply (aa_ci_short_series pair_obj None None pair_done 95 4
           (λ _, demo_table)); [reflexivity|simpl; lia].
Defined.

(** X18.  On an object without a count matrix (no [assoc] has succeeded
    on it) whose lag list is populated, [aa_ci] raises [AttributeError]
    and leaves the object as it is. *)
Theorem aa_ci_without_assoc self lg inter n_boots tables :
  n_assoc self = None → lags self = Some lg → lg ≠ [] →
  aa_ci self inter n_boots tables = (self, inl AttributeError).
Proof.
  intros Hna Hl Hne. unfold aa_ci. rewrite Hl. cbv zeta.
  destruct lg as [|l0 lg]; [done|].
  change (seq 0 (length (l0 :: lg))) with (0%nat :: seq 1 (length lg)).
  cbn [for_each]. unfold aa_ci_step at 1. by rewrite Hna.
Qed.

Lemma aa_ci_without_assoc_witness :
  n_assoc demo = None ∧ lags demo = Some [-2; 0; 2] ∧ [-2; 0; 2] ≠ [] ∧
  aa_ci demo 95 4 (λ _, demo_table) = (demo, inl AttributeError).
Proof.
  split; [reflexivity|]. split; [reflexivity|]. split; [discriminate|].
  apply (aa_ci_without_assoc demo [-2; 0; 2] 95 4 (λ _, demo_table));
    [reflexivity|reflexivity|discriminate].
Defined.

(** ** A series against itself *)

Lemma count_in_pos l lo hi t :
  t ∈ l → lo ≤ t ≤ hi → (1 ≤ count_in l lo hi)%nat.
Proof.
  intros Ht Hin. unfold count_in.
  assert (t ∈ filter (λ t, lo ≤ t ≤ hi) l) as Hf
    by (by apply list_elem_of_filter).
  destruct (filter _ l); [by apply elem_of_nil in Hf|simpl; lia].
Qed.

(** X19.  When both series are the same and the half-width is positive,
    every point finds itself at lag 0: the association curve at a zero lag
    is at least the number of points. *)
Theorem assoc_self_association self u h self' w j :
  assoc self u h = (self', ReturnNone) →
  process2 self = process1 self →
  merge_winhalf self h = Some w → 0 < w →
  ∃ lg tot,
    lags self' = Some lg ∧ assoc_total self' = Some tot ∧
    (lg !! j = Some 0 →
     ∃ v, tot !! j = Some v ∧ Z.of_nat (length (process1 self)) ≤ v).
Proof.
  intros Hrun Hsame Hw Hpos.
  destruct (assoc_ReturnNone_inv _ _ _ _ Hrun)
    as (lg & w1 & Hlg & Hne & Hw1 & Hw0).
  assert (w1 = w) as -> by congruence.
  destruct (assoc_run self u h lg w Hlg Hne Hw Hw0)
    as (s & m & Hs & _ & _ & Hl & _ & _ & _ & Hm & Ht & _).
  rewrite Hs in Hrun. injection Hrun as <-.
  exists lg, (np_sum_axis0 m). repeat (split; [done|]).
  intros Hj. pose proof (lookup_lt_Some _ _ _ Hj) as Hlt.
  destruct (np_sum_axis0_cells _ _ _ _ Hm) as [_ Hsum].
  eexists. split; [by apply Hsum|].
  rewrite (cells_column_eq _ _ _ _ j Hm) by done.
  set (R := length (process1 self)).
  pose proof (zsum_fmap_le (λ _, 1)
    (λ i, window_count (process1 self) (process2 self) lg w i j)
    (seq 0 R)) as Hle.
  rewrite (zsum_fmap_const (λ _ : nat, 1) 1) in Hle by done.
  rewrite length_seq in Hle. etrans; [|apply Hle]; [lia|].
  intros i Hi. apply elem_of_seq in Hi.
  destruct (lookup_lt_is_Some_2 (process1 self) i) as [p Hp]; [lia|].
  unfold window_count. rewrite Hp, Hj, Hsame. simpl.
  apply (inj_le 1). apply (count_in_pos _ _ _ p); [|lia].
  by eapply list_elem_of_lookup_2.
Qed.

Lemma assoc_self_association_witness :
  assoc twin_obj None None = (twin_done, ReturnNone) ∧
  process2 twin_obj = process1 twin_obj ∧
  merge_winhalf twin_obj None = Some 2 ∧ 0 < 2 ∧
  ∃ lg tot,
    lags twin_done = Some lg ∧ assoc_total twin_done = Some tot ∧
    (lg !! 1%nat = Some 0 →
     ∃ v, tot !! 1%nat = Some v ∧
          Z.of_nat (length (process1 twin_obj)) ≤ v).
Proof.
  split; [reflexivity|]. split; [reflexivity|]. split; [reflexivity|].
  split; [lia|].
  apply (assoc_self_association twin_obj None None twin_done 2 1%nat);
    [reflexivity|reflexivity|reflexivity|lia].
Defined.
